(** * lebar: a status-bar content generator for i3bar/swaybar

    Shallow embedding of [lebar.go] (the version with [Command],
    [Output] templates and [MouseEvents]) and the properties of its symbol
    resolver, block scheduler, protocol writer and click dispatcher.

    Conventions of the embedding:
    - Go [string]s and [[]byte]s are byte strings ([string] of the standard
      library); white space is Go's ASCII table (tab, LF, VT, FF, CR, space).
    - Go [float64] values are the rationals [Q] with exact arithmetic; NaN,
      the infinities and rounding are outside the model.
    - Go [int] values are [Z].
    - Go maps are [gmap]s.
    - Everything the program obtains from outside its own source (the
      operating system, [strconv.ParseFloat], [text/template] with sprig,
      the JSON codec) is a field of the class [Runtime]; the program is
      embedded once, for every runtime. *)

From Stdlib Require Import ZArith QArith Qround Ascii String List Lia.
From stdpp Require Import base tactics option list strings gmap.

Local Open Scope Z_scope.
Local Open Scope stdpp_scope.

(** ** Results and errors *)

Inductive res (E A : Type) : Type :=
| Ok (a : A)
| Err (e : E).
Arguments Ok {E A} a.
Arguments Err {E A} e.

(** The [error] values that the program itself creates or passes on. *)
Inductive error : Type :=
| InterpreterNotSpecified
| InterpreterFormatInvalid
| InterpreterDoesNotExist (interpreter : string)
| CommandNotSpecified
| CommandFormatInvalid
| ProcessError (msg : string)
| NameFieldSpecified
| TemplateParseError (field msg : string)
| TemplateExecuteError (field msg : string)
| ClickParseError (msg : string).

(** ** Strings *)

Module Strings.

(** [strings.HasPrefix] followed by slicing the prefix away. *)
Fixpoint CutPrefix (s prefix : string) : option string :=
  match prefix, s with
  | EmptyString, _ => Some s
  | String p prefix', String c s' =>
      if decide (p = c) then CutPrefix s' prefix' else None
  | String _ _, EmptyString => None
  end.

(** [strings.TrimSuffix]. *)
Definition TrimSuffix (s suffix : string) : string :=
  match CutPrefix (String.rev s) (String.rev suffix) with
  | Some r => String.rev r
  | None => s
  end.

(** [strings.TrimLeftFunc] / [bytes.TrimLeftFunc]. *)
Fixpoint TrimLeftFunc (s : string) (f : ascii → bool) : string :=
  match s with
  | EmptyString => EmptyString
  | String c s' => if f c then TrimLeftFunc s' f else s
  end.

(** [strings.TrimRightFunc] / [bytes.TrimRightFunc]. *)
Definition TrimRightFunc (s : string) (f : ascii → bool) : string :=
  String.rev (TrimLeftFunc (String.rev s) f).

(** [strings.TrimSpace] / [bytes.TrimSpace]. *)
Definition TrimSpace (s : string) : string :=
  TrimRightFunc (TrimLeftFunc s Ascii.is_space) Ascii.is_space.

(** [strings.Fields]. *)
Definition Fields (s : string) : list string := String.words s.

(** [strings.Cut]: split around the first occurrence of the separator
    byte. *)
Fixpoint Cut (s : string) (sep : ascii) : string * string * bool :=
  match s with
  | EmptyString => (EmptyString, EmptyString, false)
  | String c s' =>
      if decide (c = sep) then (EmptyString, s', true)
      else let '(before, after, found) := Cut s' sep in
           (String c before, after, found)
  end.

(** [strings.Join]. *)
Fixpoint Join (l : list string) (sep : string) : string :=
  match l with
  | [] => ""
  | [x] => x
  | x :: l' => x +:+ sep +:+ Join l' sep
  end.

(** Does the byte occur in the string? *)
Fixpoint contains (c : ascii) (s : string) : bool :=
  match s with
  | EmptyString => false
  | String d s' => if decide (c = d) then true else contains c s'
  end.

End Strings.

(** [strconv.Itoa]. *)
Module Strconv.

Definition digit (n : nat) : ascii := ascii_of_nat (48 + n).

Fixpoint digits (fuel : nat) (n : N) (acc : string) : string :=
  match fuel with
  | O => acc
  | S fuel' =>
      let acc' := String (digit (N.to_nat (n mod 10))) acc in
      if (n <? 10)%N then acc' else digits fuel' (n / 10)%N acc'
  end.

Definition Itoa (z : Z) : string :=
  let n := Z.to_N (Z.abs z) in
  let body := digits (S (N.to_nat (N.log2 n))) n "" in
  if z <? 0 then String "-" body else body.

End Strconv.

(** ** Floating-point numbers *)

Module Float.

(** [a <= b] *)
Definition le (a b : Q) : bool := Qle_bool a b.
(** [a > b] *)
Definition gt (a b : Q) : bool := negb (Qle_bool a b).
(** [float64(n)] *)
Definition of_int (n : Z) : Q := inject_Z n.
(** [int(f)]: the fraction is discarded (truncation towards zero). *)
Definition to_int (f : Q) : Z := Z.quot (Qnum f) (Z.pos (Qden f)).
(** [math.Min] *)
Definition Min (a b : Q) : Q := if Qle_bool a b then a else b.

End Float.

(** ** Data model *)

Module SymbolList.
(** [Symbols] is a Go slice: [None] is the nil slice. *)
Record t : Type := mk {
  Name : string;
  Symbols : option (list string)
}.
End SymbolList.

Module Output.
(** [MinWidth] is an [interface{}]: absent, an integer or a string. *)
Record t : Type := mk {
  Name : string;
  FullText : string;
  ShortText : string;
  Color : string;
  Background : string;
  Border : string;
  BorderTop : Z;
  BorderRight : Z;
  BorderBottom : Z;
  BorderLeft : Z;
  MinWidth : option (Z + string);
  Align : string;
  Urgent : bool;
  Separator : bool;
  SeparatorBlockWidth : Z;
  Markup : string
}.

(** The zero value [Output{}]. *)
Definition zero : t :=
  mk "" "" "" "" "" "" 0 0 0 0 None "" false false 0 "".

(** The fields of kind [reflect.String], in declaration order: the ones
    the reflection loop of [executeBlock] visits and rewrites. *)
Inductive field : Type :=
| FName | FFullText | FShortText | FColor | FBackground | FBorder
| FAlign | FMarkup.

Definition string_fields : list field :=
  [FName; FFullText; FShortText; FColor; FBackground; FBorder; FAlign; FMarkup].

(** [field.Name] *)
Definition field_name (f : field) : string :=
  match f with
  | FName => "Name" | FFullText => "FullText" | FShortText => "ShortText"
  | FColor => "Color" | FBackground => "Background" | FBorder => "Border"
  | FAlign => "Align" | FMarkup => "Markup"
  end.

(** [fieldValue.String()] *)
Definition get (f : field) (o : t) : string :=
  match f with
  | FName => Name o | FFullText => FullText o | FShortText => ShortText o
  | FColor => Color o | FBackground => Background o | FBorder => Border o
  | FAlign => Align o | FMarkup => Markup o
  end.

(** [fieldValue.SetString(s)] *)
Definition set (f : field) (s : string) (o : t) : t :=
  let 'mk n ft st c bg b bt br bb bl mw al u sp sw mk_ := o in
  match f with
  | FName => mk s ft st c bg b bt br bb bl mw al u sp sw mk_
  | FFullText => mk n s st c bg b bt br bb bl mw al u sp sw mk_
  | FShortText => mk n ft s c bg b bt br bb bl mw al u sp sw mk_
  | FColor => mk n ft st s bg b bt br bb bl mw al u sp sw mk_
  | FBackground => mk n ft st c s b bt br bb bl mw al u sp sw mk_
  | FBorder => mk n ft st c bg s bt br bb bl mw al u sp sw mk_
  | FAlign => mk n ft st c bg b bt br bb bl mw s u sp sw mk_
  | FMarkup => mk n ft st c bg b bt br bb bl mw al u sp sw s
  end.
End Output.

Module MouseEvent.
Record t : Type := mk {
  Interpreter : string;
  Script : string;
  Command : string
}.
End MouseEvent.

Module Block.
Record t : Type := mk {
  Name : string;
  Interval : Z;
  Interpreter : string;
  Script : string;
  Command : string;
  Output : Output.t;
  MouseEvents : gmap string MouseEvent.t
}.
End Block.

Module Config.
Record t : Type := mk {
  StopSignal : Z;
  ContSignal : Z;
  Separator : string;
  SymbolLists : list SymbolList.t;
  Blocks : list Block.t;
  ClickEvents : bool
}.
End Config.

(** [eventButton] is an [int] with five named values. *)
Definition eventButton : Type := Z.
Definition ButtonLeft : eventButton := 1.
Definition ButtonMiddle : eventButton := 2.
Definition ButtonRight : eventButton := 3.
Definition ButtonScrollUp : eventButton := 4.
Definition ButtonScrollDown : eventButton := 5.

(** [func (b eventButton) String() string] *)
Definition eventButton_String (b : eventButton) : string :=
  if decide (b = ButtonLeft) then "Left"
  else if decide (b = ButtonMiddle) then "Middle"
  else if decide (b = ButtonRight) then "Right"
  else if decide (b = ButtonScrollUp) then "ScrollUp"
  else if decide (b = ButtonScrollDown) then "ScrollDown"
  else "".

Module I3barClickEvent.
Record t : Type := mk {
  Name : string;
  Instance : string;
  X : Z;
  Y : Z;
  Button : eventButton;
  Event : Z;
  RelativeX : Z;
  RelativeY : Z;
  Width : Z;
  Height : Z;
  Scale : Q
}.
End I3barClickEvent.

Definition defaultSymbols : list string := ["🟦"; "🟩"; "🟨"; "🟫"; "🟥"].
Definition defaultOver100Symbols : list string := ["⚠️"; "💥"; "🆘"].

(** [findSymbolList]: the symbols of the first list with that name, [None]
    (nil) when there is none; a list declared without symbols also yields
    nil. *)
Fixpoint findSymbolList_in (lists : list SymbolList.t) (name : string)
  : option (list string) :=
  match lists with
  | [] => None
  | list :: rest =>
      if decide (SymbolList.Name list = name) then SymbolList.Symbols list
      else findSymbolList_in rest name
  end.

Definition findSymbolList (config : Config.t) (name : string)
  : option (list string) :=
  findSymbolList_in (Config.SymbolLists config) name.

(** [findBlockByName]: the first block with that name. *)
Fixpoint findBlockByName_in (blocks : list Block.t) (name : string)
  : option Block.t :=
  match blocks with
  | [] => None
  | block :: rest =>
      if decide (Block.Name block = name) then Some block
      else findBlockByName_in rest name
  end.

Definition findBlockByName (config : Config.t) (name : string)
  : option Block.t :=
  findBlockByName_in (Config.Blocks config) name.

(** ** Template values and the outcome of a call of [Symbol] *)

(** The dynamic types [Symbol] distinguishes among its [interface{}]
    arguments; any other value is kept as its [%v] rendering. *)
Inductive value : Type :=
| VString (s : string)
| VStrings (l : list string)
| VFloat (f : Q)
| VOther (repr : string).

(** A Go function returning a string either returns it or panics on a
    slice index outside [0, len). *)
Inductive glyph_result : Type :=
| Glyph (g : string)
| IndexOutOfRange (index : Z) (len : nat).

(** [list[index]] *)
Definition index_slice (l : list string) (index : Z) : glyph_result :=
  if index <? 0 then IndexOutOfRange index (length l)
  else match l !! Z.to_nat index with
       | Some g => Glyph g
       | None => IndexOutOfRange index (length l)
       end.

(** ** The runtime: what the program calls but does not define *)

Class Runtime : Type := {
  (** [strconv.ParseFloat(s, 64)]: the number, or [None] when [err != nil]. *)
  ParseFloat : string → option Q;
  (** [fmt.Sprintf("%v", f)] for a [float64]. *)
  FormatFloat : Q → string;
  (** The world outside the process: file system, clock, other programs. *)
  OS : Type;
  (** [exec.LookPath(file)], which reads [PATH] from the environment. *)
  LookPath : OS → gmap string string → string → res string string;
  (** [exec.CommandContext(ctx, argv...).Output()]: the child inherits the
      environment of the process; the answer is its standard output, or the
      error of a failed start, a non-zero exit or the expired deadline. *)
  CmdOutput : OS → gmap string string → list string → res string string * OS;
  (** A parsed template. *)
  Template : Type;
  (** [template.New(name).Funcs(tmplFuncs).Parse(text)] *)
  TemplateParse : string → string → res string Template;
  (** [tmpl.Execute(&buf, data)], with the [Symbol] entry of the function
      map and the two entries [Text] and [Config] of [data]; the functions
      of sprig may read the clock and the environment. *)
  TemplateExecute :
    OS → gmap string string →
    Template → (list value → glyph_result) → string → Config.t →
    res string string;
  (** [json.Marshal(outputs)] *)
  JsonMarshal : list Output.t → string;
  (** [json.Unmarshal(raw, ev)] into a fresh [I3barClickEvent]. *)
  JsonUnmarshal : string → res string I3barClickEvent.t
}.

(** ** The symbol resolver *)

Section SymbolResolver.
Context `{Runtime}.

(** [fmt.Sprintf("%v", arg)] *)
Definition Sprint (arg : value) : string :=
  match arg with
  | VString s => s
  | VStrings l => "[" +:+ Strings.Join l " " +:+ "]"
  | VFloat f => FormatFloat f
  | VOther repr => repr
  end.

(** The closure [tmplFuncs["Symbol"]] built by [executeBlock]; it
    captures [config]. *)
Definition Symbol (config : Config.t) (args : list value) : glyph_result :=
  match args with
  | [] => Glyph ""
  | arg0 :: _ =>
      (* Parse the first argument (mandatory) *)
      let strVal := Sprint arg0 in
      let strVal := Strings.TrimSpace (Strings.TrimSuffix strVal "%") in
      match ParseFloat strVal with
      | None => Glyph "?"
      | Some number =>
          (* Set default values *)
          let symbolList := defaultSymbols in
          let over100SymbolList := defaultOver100Symbols in
          let scale := 1%Q in
          (* Parse optional arguments *)
          let symbolList :=
            match args !! 1%nat with
            | Some (VStrings arg) =>
                if (0 <? length arg)%nat then arg else symbolList
            | Some (VString arg) =>
                match findSymbolList config arg with
                | Some customSymbolList => customSymbolList
                | None => symbolList
                end
            | _ => symbolList
            end in
          let '(over100SymbolList, scale) :=
            match args !! 2%nat with
            | Some (VStrings arg) =>
                if (0 <? length arg)%nat then (arg, scale)
                else (over100SymbolList, scale)
            | Some (VString arg) =>
                match findSymbolList config arg with
                | Some customOver100SymbolList =>
                    (customOver100SymbolList, scale)
                | None =>
                    match ParseFloat arg with
                    | Some scaleArg =>
                        if Float.gt scaleArg 0 then (over100SymbolList, scaleArg)
                        else (over100SymbolList, scale)
                    | None => (over100SymbolList, scale)
                    end
                end
            | Some (VFloat arg) =>
                if Float.gt arg 0 then (over100SymbolList, arg)
                else (over100SymbolList, scale)
            | _ => (over100SymbolList, scale)
            end in
          let scale :=
            match args !! 3%nat with
            | Some (VFloat scaleArg) =>
                if Float.gt scaleArg 0 then scaleArg else scale
            | _ => scale
            end in
          (* Validate lists *)
          let symbolList :=
            if (length symbolList =? 0)%nat then defaultSymbols
            else symbolList in
          let over100SymbolList :=
            if (length over100SymbolList =? 0)%nat then defaultOver100Symbols
            else over100SymbolList in
          (* Apply scale and determine symbol *)
          let scaledNumber := (number / scale)%Q in
          if Float.le scaledNumber 100 then
            let index :=
              Float.to_int
                ((scaledNumber / 100)
                 * Float.of_int (Z.of_nat (length symbolList) - 1))%Q in
            index_slice symbolList index
          else
            let index :=
              Float.to_int
                (Float.Min
                   (Float.of_int (Z.of_nat (length over100SymbolList) - 1))
                   ((scaledNumber / 100)
                    * Float.of_int (Z.of_nat (length over100SymbolList) - 1))%Q) in
            index_slice over100SymbolList index
      end
  end.

End SymbolResolver.

(** ** The process environment ([os.Environ], [os.Setenv], [os.Clearenv]) *)

Module Os.

(** [os.Environ()]: one [key=value] string per variable. *)
Definition Environ (env : gmap string string) : list string :=
  (λ kv : string * string, kv.1 +:+ "=" +:+ kv.2) <$> map_to_list env.

(** [os.Setenv] refuses (with [EINVAL], which the program ignores) an
    empty key, a key with [=] or NUL, and a value with NUL. *)
Definition valid (key value : string) : bool :=
  negb (bool_decide (key = ""))
  && negb (Strings.contains "=" key)
  && negb (Strings.contains "000" key)
  && negb (Strings.contains "000" value).

Definition Setenv (key value : string) (env : gmap string string)
  : gmap string string :=
  if valid key value then <[key := value]> env else env.

Definition Clearenv (env : gmap string string) : gmap string string := ∅.

End Os.

(** ** Output streams and the log *)

(** One constructor per statement of [main] that prints on standard
    output. *)
Inductive write : Type :=
| WHeader (headerJSON : string)     (* fmt.Printf("%s\n", headerJSON) *)
| WOpen                             (* fmt.Println("[") *)
| WComma                            (* fmt.Print(",") *)
| WSnapshot (jsonOutput : string)   (* fmt.Printf("%s", jsonOutput) *)
| WClose                            (* fmt.Println("]") *)
| WTriggered.                       (* fmt.Printf("\nTriggered\n") *)

Definition newline : string := String "010" "".


(** One constructor per call of [logger.Printf] / [logger.Println]. *)
Inductive logmsg : Type :=
| LogExecutingBlock (name : string)
| LogTickError (err : error)
| LogProcessedRaw (raw : string)
| LogUnmarshalError (msg : string)
| LogProblematicJSON (raw : string)
| LogStarting
| LogFinished
| LogInitialLine (line : string)
| LogRawInputLine (raw : string)
| LogSkipEmpty
| LogSkipComma
| LogClickParseError (err : error)
| LogNoBlock (name : string)
| LogMatchedBlock (block : Block.t)
| LogNoHandler (eventName blockName : string)
| LogMouseScript (script : string)
| LogNoScriptOrCommand (blockName : string)
| LogUsingInterpreter (interpreter : string)
| LogExecutingMouse (blockName : string)
| LogMouseDetails (mouseEvent : MouseEvent.t)
| LogMouseError (blockName : string) (err : error)
| LogMouseOutput (blockName output : string)
| LogStdinError (msg : string).

(** Is the entry the report of an error? *)
Definition is_error_report (m : logmsg) : bool :=
  match m with
  | LogTickError _ | LogUnmarshalError _ | LogClickParseError _
  | LogMouseError _ _ | LogStdinError _ => true
  | _ => false
  end.

(** ** The state of the process *)

(** The process and the world around it, [W]. *)
Record Process (W : Type) : Type := mkProc {
  world : W;
  environ : gmap string string;
  stdout : list write;                 (* oldest first *)
  stderr : list error;                 (* the errors printed there *)
  logged : list logmsg;                (* oldest first *)
  started : list (list string * gmap string string)
    (* argv and environment of every child process, oldest first *)
}.
Arguments mkProc {W} _ _ _ _ _ _.
Arguments world {W} _.
Arguments environ {W} _.
Arguments stdout {W} _.
Arguments stderr {W} _.
Arguments logged {W} _.
Arguments started {W} _.

Abbreviation Proc := (Process OS).

Section Program.
Context `{Runtime}.

Definition log (m : logmsg) (st : Proc) : Proc :=
  mkProc (world st) (environ st) (stdout st) (stderr st)
         (logged st ++ [m]) (started st).

Definition print (w : write) (st : Proc) : Proc :=
  mkProc (world st) (environ st) (stdout st ++ [w]) (stderr st)
         (logged st) (started st).

Definition eprint (err : error) (st : Proc) : Proc :=
  mkProc (world st) (environ st) (stdout st) (stderr st ++ [err])
         (logged st) (started st).

Definition with_environ (f : gmap string string → gmap string string)
  (st : Proc) : Proc :=
  mkProc (world st) (f (environ st)) (stdout st) (stderr st)
         (logged st) (started st).

(** [cmd.Output()] followed by the error test and [strings.TrimSpace]
    that both [executeScript] and [executeCommand] end with. *)
Definition output_of (argv : list string) (st : Proc)
  : res error string * Proc :=
  let '(r, w) := CmdOutput (world st) (environ st) argv in
  let st' := mkProc w (environ st) (stdout st) (stderr st) (logged st)
                    (started st ++ [(argv, environ st)]) in
  match r with
  | Err msg => (Err (ProcessError msg), st')
  | Ok cmdOutput => (Ok (Strings.TrimSpace cmdOutput), st')
  end.

(** [executeScript]: run [script] as the last argument of the
    interpreter. *)
Definition executeScript (interpreter script : string) (st : Proc)
  : res error string * Proc :=
  if decide (interpreter = "") then (Err InterpreterNotSpecified, st)
  else
    match Strings.Fields interpreter with
    | [] => (Err InterpreterFormatInvalid, st)
    | part0 :: parts1 =>
        match LookPath (world st) (environ st) part0 with
        | Err _ => (Err (InterpreterDoesNotExist interpreter), st)
        | Ok interpreterPath =>
            if decide (interpreterPath = "")
            then (Err (InterpreterDoesNotExist interpreter), st)
            else output_of (part0 :: parts1 ++ [script]) st
        end
    end.

(** [executeCommand]: run the command itself. *)
Definition executeCommand (command : string) (st : Proc)
  : res error string * Proc :=
  if decide (command = "") then (Err CommandNotSpecified, st)
  else
    match Strings.Fields command with
    | [] => (Err CommandFormatInvalid, st)
    | part0 :: parts1 => output_of (part0 :: parts1) st
    end.

(** The reflection loop of [executeBlock]: every non-empty string field
    of [output], in declaration order, is parsed as a template, executed
    and overwritten with the result. *)
Fixpoint applyTemplates (config : Config.t) (text : string) (st : Proc)
  (fields : list Output.field) (output : Output.t) : res error Output.t :=
  match fields with
  | [] => Ok output
  | field :: rest =>
      let fieldTemplate := Output.get field output in
      if decide (fieldTemplate ≠ "") then
        match TemplateParse (Output.field_name field) fieldTemplate with
        | Err msg => Err (TemplateParseError (Output.field_name field) msg)
        | Ok tmpl =>
            match TemplateExecute (world st) (environ st) tmpl
                    (Symbol config) text config with
            | Err msg =>
                Err (TemplateExecuteError (Output.field_name field) msg)
            | Ok rendered =>
                applyTemplates config text st rest
                  (Output.set field rendered output)
            end
        end
      else applyTemplates config text st rest output
  end.

(** [executeBlock] *)
Definition executeBlock (block : Block.t) (config : Config.t) (st : Proc)
  : res error Output.t * Proc :=
  let st := log (LogExecutingBlock (Block.Name block)) st in
  let '(r, st) :=
    if decide (Block.Command block ≠ "")
    then executeCommand (Block.Command block) st
    else executeScript (Block.Interpreter block) (Block.Script block) st in
  match r with
  | Err err => (Err err, st)
  | Ok outputText =>
      let text := Strings.TrimSpace outputText in
      let output := Block.Output block in
      (* Ensure the name is set by lebar *)
      if decide (Output.Name output ≠ "") then (Err NameFieldSpecified, st)
      else
        let output := Output.set Output.FName (Block.Name block) output in
        (* Dynamically apply templates to Output fields *)
        (applyTemplates config text st Output.string_fields output, st)
  end.

(** [runBlocks]: the loop over [config.Blocks], with [outputs] as its
    accumulator; the first error ends it and discards [outputs]. *)
Fixpoint runBlocks_from (config : Config.t) (blocks : list Block.t)
  (outputs : list Output.t) (st : Proc) : res error (list Output.t) * Proc :=
  match blocks with
  | [] => (Ok outputs, st)
  | block :: rest =>
      let '(r, st) := executeBlock block config st in
      match r with
      | Err err => (Err err, st)
      | Ok output => runBlocks_from config rest (outputs ++ [output]) st
      end
  end.

Definition runBlocks (config : Config.t) (st : Proc)
  : res error (list Output.t) * Proc :=
  runBlocks_from config (Config.Blocks config) [] st.

(** *** The scheduler and the protocol writer ([main]) *)

(** The part of [main] between reading the configuration and printing
    the header: the default separator and the derived [ClickEvents]. *)
Definition configure (config : Config.t) : Config.t :=
  Config.mk (Config.StopSignal config) (Config.ContSignal config)
    (if decide (Config.Separator config = "") then "|"
     else Config.Separator config)
    (Config.SymbolLists config) (Config.Blocks config)
    (existsb (λ block, (0 <? size (Block.MouseEvents block))%nat)
             (Config.Blocks config)).

Definition quoted (s : string) : string :=
  String "034" (s +:+ String "034" "").

(** [json.Marshal(header)]: the four entries of the map, keys in sorted
    order, without white space. *)
Definition headerJSON (config : Config.t) : string :=
  "{" +:+ quoted "click_events" +:+ ":"
      +:+ (if Config.ClickEvents config then "true" else "false")
  +:+ "," +:+ quoted "cont_signal" +:+ ":"
      +:+ Strconv.Itoa (Config.ContSignal config)
  +:+ "," +:+ quoted "stop_signal" +:+ ":"
      +:+ Strconv.Itoa (Config.StopSignal config)
  +:+ "," +:+ quoted "version" +:+ ":1}".

(** One iteration of [for range ticker.C]; [first] is the local variable
    of [main]. *)
Definition tick (config : Config.t) (first : bool) (st : Proc)
  : bool * Proc :=
  let '(r, st) := runBlocks config st in
  match r with
  | Err err => (first, log (LogTickError err) st)      (* continue *)
  | Ok outputs =>
      let st := if negb first then print WComma st else st in
      (false, print (WSnapshot (JsonMarshal outputs)) st)
  end.

(** The first [ticks] iterations of the loop. *)
Fixpoint tickLoop (config : Config.t) (ticks : nat) (first : bool)
  (st : Proc) : bool * Proc :=
  match ticks with
  | O => (first, st)
  | S ticks' =>
      let '(first, st) := tick config first st in
      tickLoop config ticks' first st
  end.

(** The main goroutine from the loaded configuration on, after [ticks]
    values were received from [ticker.C]. The statement after the loop is
    reached only when the channel is closed ([closed = true]); the
    channel of a [time.Ticker] never is, so the running program is
    [main config ticks false]. *)
Definition main (config : Config.t) (ticks : nat) (closed : bool)
  (st : Proc) : Proc :=
  let config := configure config in
  let st := print (WHeader (headerJSON config)) st in
  let st := print WOpen st in
  (* if config.ClickEvents { go func() { ... }() }: see [clickGoroutine] *)
  let '(_, st) := tickLoop config ticks true st in
  if closed then print WClose st else st.

(** *** The click dispatcher *)

(** [NewEventFromRaw] *)
Definition NewEventFromRaw (raw : string) (st : Proc)
  : res error I3barClickEvent.t * Proc :=
  let raw := Strings.TrimLeftFunc raw
               (λ r, bool_decide (r = ","%char) || Ascii.is_space r) in
  let raw := Strings.TrimLeftFunc raw (λ r, negb (bool_decide (r = "{"%char))) in
  let raw := Strings.TrimRightFunc raw (λ r, negb (bool_decide (r = "}"%char))) in
  let st := log (LogProcessedRaw raw) st in
  match JsonUnmarshal raw with
  | Err msg =>
      let st := log (LogUnmarshalError msg) st in
      let st := log (LogProblematicJSON raw) st in
      (Err (ClickParseError msg), st)
  | Ok ev => (Ok ev, st)
  end.

(** What [handleClickEvents] has deferred; the calls run when the
    function returns, the most recently deferred first. *)
Inductive deferred : Type :=
| DeferLogFinished                       (* defer logger.Println("Finished ...") *)
| DeferCancel                            (* defer cancel() *)
| DeferRestoreEnv (oldEnv : list string) (* defer func() { os.Clearenv(); ... }() *).

(** The body of the deferred closure that puts [oldEnv] back. *)
Definition restoreEnv (oldEnv : list string) (env : gmap string string)
  : gmap string string :=
  foldl (λ env entry,
           let '(key, value, _) := Strings.Cut entry "=" in
           Os.Setenv key value env)
        (Os.Clearenv env) oldEnv.

Definition run_deferred (d : deferred) (st : Proc) : Proc :=
  match d with
  | DeferLogFinished => log LogFinished st
  | DeferCancel => st
  | DeferRestoreEnv oldEnv => with_environ (restoreEnv oldEnv) st
  end.

(** The body of [for scanner.Scan()] for one input line [raw]; [defers]
    is the stack of deferred calls, the most recent at the head. Every
    [continue] of the source is a branch that returns here. *)
Definition handleRecord (config : Config.t) (raw : string)
  (defers : list deferred) (st : Proc) : list deferred * Proc :=
  let st := log (LogRawInputLine raw) st in
  if decide (String.length (Strings.TrimSpace raw) = 0%nat)
  then (defers, log LogSkipEmpty st)
  else if decide (raw = ",") then (defers, log LogSkipComma st)
  else
    let '(r, st) := NewEventFromRaw raw st in
    match r with
    | Err err => (defers, log (LogClickParseError err) st)
    | Ok ev =>
        match findBlockByName config (I3barClickEvent.Name ev) with
        | None => (defers, log (LogNoBlock (I3barClickEvent.Name ev)) st)
        | Some block =>
            let st := log (LogMatchedBlock block) st in
            let eventName := eventButton_String (I3barClickEvent.Button ev) in
            match Block.MouseEvents block !! eventName with
            | None =>
                (defers, log (LogNoHandler eventName (Block.Name block)) st)
            | Some mouseEvent =>
                let st := log (LogMouseScript (MouseEvent.Script mouseEvent)) st in
                if decide (MouseEvent.Script mouseEvent = ""
                           ∧ MouseEvent.Command mouseEvent = "")
                then (defers, log (LogNoScriptOrCommand (Block.Name block)) st)
                else
                  let interpreter :=
                    if decide (MouseEvent.Interpreter mouseEvent = "")
                    then Block.Interpreter block
                    else MouseEvent.Interpreter mouseEvent in
                  let st := log (LogUsingInterpreter interpreter) st in
                  let defers := DeferCancel :: defers in
                  let oldEnv := Os.Environ (environ st) in
                  let st := with_environ
                              (Os.Setenv "BUTTON"
                                 (eventButton_String (I3barClickEvent.Button ev))) st in
                  let st := with_environ
                              (Os.Setenv "X" (Strconv.Itoa (I3barClickEvent.X ev))) st in
                  let st := with_environ
                              (Os.Setenv "Y" (Strconv.Itoa (I3barClickEvent.Y ev))) st in
                  let defers := DeferRestoreEnv oldEnv :: defers in
                  let st := log (LogExecutingMouse (Block.Name block)) st in
                  let st := log (LogMouseDetails mouseEvent) st in
                  let '(r, st) :=
                    if decide (MouseEvent.Command mouseEvent ≠ "")
                    then executeCommand (MouseEvent.Command mouseEvent) st
                    else executeScript interpreter (MouseEvent.Script mouseEvent) st in
                  match r with
                  | Err err =>
                      let st := log (LogMouseError (Block.Name block) err) st in
                      (defers, eprint err st)
                  | Ok output =>
                      (defers, log (LogMouseOutput (Block.Name block) output) st)
                  end
            end
        end
    end.

(** [for scanner.Scan() { ... }] over the lines the scanner delivers. *)
Fixpoint eventLoop (config : Config.t) (lines : list string)
  (defers : list deferred) (st : Proc) : list deferred * Proc :=
  match lines with
  | [] => (defers, st)
  | raw :: rest =>
      let '(defers, st) := handleRecord config raw defers st in
      eventLoop config rest defers st
  end.

(** [handleClickEvents]: [lines] are the lines [bufio.Scanner] delivers
    from standard input until it stops, [scanErr] is [scanner.Err()]. *)
Definition handleClickEvents (config : Config.t) (lines : list string)
  (scanErr : option string) (st : Proc) : Proc :=
  let st := log LogStarting st in
  let defers := [DeferLogFinished] in
  let '(lines, st) :=
    match lines with
    | initial :: rest => (rest, log (LogInitialLine initial) st)
    | [] => ([], st)
    end in
  let '(defers, st) := eventLoop config lines defers st in
  let st := match scanErr with
            | Some msg => log (LogStdinError msg) st
            | None => st
            end in
  foldl (λ st d, run_deferred d st) st defers.

(** The goroutine [main] starts when [config.ClickEvents] holds; after
    it the process exits. *)
Definition clickGoroutine (config : Config.t) (lines : list string)
  (scanErr : option string) (st : Proc) : Proc :=
  print WTriggered (handleClickEvents config lines scanErr st).

End Program.

(** ** A concrete runtime

    A small runtime on which the program can be run inside Rocq.  Each
    field agrees with the Go library on the inputs named in its comment and
    rejects what lies outside; the general theorems below do not depend on
    it, the worked examples do. *)

Module Demo.

(** *** Numbers *)

(** The value of a string of decimal digits, [None] on any other byte. *)
Fixpoint digits_value (s : string) (acc : N) : option N :=
  match s with
  | EmptyString => Some acc
  | String c s' =>
      match Ascii.is_nat c with
      | Some d => digits_value s' (acc * 10 + N.of_nat d)%N
      | None => None
      end
  end.

(** Decimal literals [[+-]digits[.digits]] with at least one digit, as
    [strconv.ParseFloat] reads them; every other string is refused
    (exponents, hexadecimal, [inf] and [nan] are not covered). *)
Definition parse_decimal (s : string) : option Q :=
  let '(negative, body) :=
    match s with
    | String "-" s' => (true, s')
    | String "+" s' => (false, s')
    | _ => (false, s)
    end in
  let '(int_part, frac_part, _) := Strings.Cut body "." in
  if decide (int_part = "" ∧ frac_part = "") then None
  else
    match digits_value (int_part +:+ frac_part) 0 with
    | None => None
    | Some n =>
        let q := Qmake (Z.of_N n) (Z.to_pos (10 ^ Z.of_nat (String.length frac_part))) in
        Some (if negative then Qopp q else q)
    end.

Fixpoint fraction_digits (fuel : nat) (r d : N) : string :=
  match fuel with
  | O => ""
  | S fuel' =>
      if (r =? 0)%N then ""
      else String (Strconv.digit (N.to_nat (r * 10 / d)))
                  (fraction_digits fuel' (r * 10 mod d)%N d)
  end.

(** The plain decimal form of a number, up to 17 fractional digits. *)
Definition format_decimal (q : Q) : string :=
  let n := Z.to_N (Z.abs (Qnum q)) in
  let d := Npos (Qden q) in
  let sign := if (Qnum q <? 0) then "-" else "" in
  let frac := fraction_digits 17 (n mod d)%N d in
  sign +:+ Strconv.Itoa (Z.of_N (n / d))
       +:+ (if decide (frac = "") then "" else "." +:+ frac).

(** *** Processes *)

(** Three programs are installed: [echo], [true] and [false]; the state of
    the world is the number of processes run so far. *)
Definition look_path (w : nat) (env : gmap string string) (file : string)
  : res string string :=
  if bool_decide (file ∈ ["echo"; "true"; "false"])
  then Ok ("/bin/" +:+ file)
  else Err "executable file not found in $PATH".

Definition cmd_output (w : nat) (env : gmap string string)
  (argv : list string) : res string string * nat :=
  (match argv with
   | "echo" :: args => Ok (Strings.Join args " " +:+ newline)
   | "true" :: _ => Ok ""
   | "false" :: _ => Err "exit status 1"
   | _ => Err "executable file not found in $PATH"
   end, S w).

(** *** Templates *)

(** Literal text and the two actions [{{.Text}}] and [{{Symbol .Text}}];
    a template with any other action is refused. *)
Inductive piece : Type :=
| Lit (s : string)
| FieldText
| CallSymbolText.

(** Split at the first occurrence of the two bytes [a b]. *)
Fixpoint cut2 (a b : ascii) (s : string) : option (string * string) :=
  match s with
  | String c (String d rest as tl) =>
      if decide (c = a ∧ d = b) then Some ("", rest)
      else (λ p : string * string, (String c p.1, p.2)) <$> cut2 a b tl
  | _ => None
  end.

Fixpoint parse_pieces (fuel : nat) (s : string) : res string (list piece) :=
  match cut2 "{" "{" s with
  | None => Ok [Lit s]
  | Some (before, rest) =>
      match fuel, cut2 "}" "}" rest with
      | S fuel', Some (action, after) =>
          let p :=
            if decide (Strings.TrimSpace action = ".Text") then Some FieldText
            else if decide (Strings.TrimSpace action = "Symbol .Text")
                 then Some CallSymbolText
                 else None in
          match p, parse_pieces fuel' after with
          | Some p, Ok ps => Ok (Lit before :: p :: ps)
          | None, _ => Err "unsupported action"
          | _, Err msg => Err msg
          end
      | _, _ => Err "unclosed action"
      end
  end.

Definition template_parse (name text : string) : res string (list piece) :=
  parse_pieces (String.length text) text.

(** A panic in a called function ends the execution with an error. *)
Fixpoint template_execute (w : nat) (env : gmap string string)
  (tmpl : list piece) (symbol : list value → glyph_result) (text : string)
  (config : Config.t) : res string string :=
  match tmpl with
  | [] => Ok ""
  | p :: rest =>
      let here :=
        match p with
        | Lit s => Ok s
        | FieldText => Ok text
        | CallSymbolText =>
            match symbol [VString text] with
            | Glyph g => Ok g
            | IndexOutOfRange _ _ =>
                Err "error calling Symbol: runtime error: index out of range"
            end
        end in
      match here, template_execute w env rest symbol text config with
      | Ok a, Ok b => Ok (a +:+ b)
      | Err msg, _ => Err msg
      | _, Err msg => Err msg
      end
  end.

(** *** JSON *)

Definition quote : ascii := "034".

(** [json.Marshal] of the outputs, for field values that need no
    escaping; fields tagged [omitempty] are left out at their zero value,
    and the nil slice is [null]. *)
Definition string_member (key value : string) (omitempty : bool)
  : list string :=
  if omitempty && bool_decide (value = "") then []
  else [quoted key +:+ ":" +:+ quoted value].

Definition int_member (key : string) (value : Z) : list string :=
  if decide (value = 0) then [] else [quoted key +:+ ":" +:+ Strconv.Itoa value].

Definition bool_member (key : string) (value : bool) : list string :=
  if value then [quoted key +:+ ":true"] else [].

Definition marshal_output (o : Output.t) : string :=
  "{" +:+ Strings.Join
    (string_member "name" (Output.Name o) true
     ++ string_member "full_text" (Output.FullText o) false
     ++ string_member "short_text" (Output.ShortText o) true
     ++ string_member "color" (Output.Color o) true
     ++ string_member "background" (Output.Background o) true
     ++ string_member "border" (Output.Border o) true
     ++ int_member "border_top" (Output.BorderTop o)
     ++ int_member "border_right" (Output.BorderRight o)
     ++ int_member "border_bottom" (Output.BorderBottom o)
     ++ int_member "border_left" (Output.BorderLeft o)
     ++ match Output.MinWidth o with
        | None => []
        | Some (inl n) => [quoted "min_width" +:+ ":" +:+ Strconv.Itoa n]
        | Some (inr w) => [quoted "min_width" +:+ ":" +:+ quoted w]
        end
     ++ string_member "align" (Output.Align o) true
     ++ bool_member "urgent" (Output.Urgent o)
     ++ bool_member "separator" (Output.Separator o)
     ++ int_member "separator_block_width" (Output.SeparatorBlockWidth o)
     ++ string_member "markup" (Output.Markup o) true) ","
  +:+ "}".

Definition json_marshal (outputs : list Output.t) : string :=
  match outputs with
  | [] => "null"
  | _ => "[" +:+ Strings.Join (marshal_output <$> outputs) "," +:+ "]"
  end.

(** [json.Unmarshal] into an [I3barClickEvent], for one flat object whose
    values are numbers or strings without escapes; anything else is
    refused. *)
Inductive jvalue : Type :=
| JString (s : string)
| JNumber (literal : string).

Definition skip_space (s : string) : string :=
  Strings.TrimLeftFunc s Ascii.is_space.

(** The characters up to the closing quote, and what follows it. *)
Fixpoint read_string (s : string) : option (string * string) :=
  match s with
  | EmptyString => None
  | String c s' =>
      if decide (c = quote) then Some ("", s')
      else if decide (c = "\"%char) then None
      else (λ p : string * string, (String c p.1, p.2)) <$> read_string s'
  end.

(** The longest prefix of sign, digit and point characters. *)
Fixpoint read_number (s : string) : string * string :=
  match s with
  | EmptyString => ("", "")
  | String c s' =>
      if Strings.contains c "-+.0123456789"
      then let '(n, rest) := read_number s' in (String c n, rest)
      else ("", s)
  end.

Definition read_value (s : string) : option (jvalue * string) :=
  match s with
  | String c s' =>
      if decide (c = quote)
      then (λ p : string * string, (JString p.1, p.2)) <$> read_string s'
      else let '(n, rest) := read_number s in
           if decide (n = "") then None else Some (JNumber n, rest)
  | EmptyString => None
  end.

(** The members of an object, read from just after [{] or [,]. *)
Fixpoint read_members (fuel : nat) (s : string)
  : option (list (string * jvalue)) :=
  match fuel, skip_space s with
  | S fuel', String c s1 =>
      if decide (c = quote) then
        '(key, s2) ← read_string s1;
        match skip_space s2 with
        | String ":" s3 =>
            '(v, s4) ← read_value (skip_space s3);
            match skip_space s4 with
            | String "," s5 =>
                (λ ms, (key, v) :: ms) <$> read_members fuel' s5
            | String "}" s5 =>
                if decide (skip_space s5 = "") then Some [(key, v)] else None
            | _ => None
            end
        | _ => None
        end
      else None
  | _, _ => None
  end.

Definition read_object (s : string) : option (list (string * jvalue)) :=
  match skip_space s with
  | String "{" s1 =>
      match skip_space s1 with
      | String "}" s2 => if decide (skip_space s2 = "") then Some [] else None
      | _ => read_members (String.length s) s1
      end
  | _ => None
  end.

Definition parse_int (s : string) : option Z :=
  match s with
  | String "-" s' =>
      if decide (s' = "") then None
      else (λ n, - Z.of_N n) <$> digits_value s' 0
  | EmptyString => None
  | _ => Z.of_N <$> digits_value s 0
  end.

(** Store one member in the event; unknown keys are ignored, a value of
    the wrong type is an error. *)
Definition store_member (ev : I3barClickEvent.t) (m : string * jvalue)
  : option I3barClickEvent.t :=
  let 'I3barClickEvent.mk name inst x y button event rx ry width height scale := ev in
  let '(key, v) := m in
  let as_string := match v with JString s => Some s | JNumber _ => None end in
  let as_int := match v with JNumber n => parse_int n | JString _ => None end in
  let as_float := match v with JNumber n => parse_decimal n | JString _ => None end in
  if decide (key = "name") then
    (λ s, I3barClickEvent.mk s inst x y button event rx ry width height scale) <$> as_string
  else if decide (key = "instance") then
    (λ s, I3barClickEvent.mk name s x y button event rx ry width height scale) <$> as_string
  else if decide (key = "x") then
    (λ n, I3barClickEvent.mk name inst n y button event rx ry width height scale) <$> as_int
  else if decide (key = "y") then
    (λ n, I3barClickEvent.mk name inst x n button event rx ry width height scale) <$> as_int
  else if decide (key = "button") then
    (λ n, I3barClickEvent.mk name inst x y n event rx ry width height scale) <$> as_int
  else if decide (key = "event") then
    (λ n, I3barClickEvent.mk name inst x y button n rx ry width height scale) <$> as_int
  else if decide (key = "relative_x") then
    (λ n, I3barClickEvent.mk name inst x y button event n ry width height scale) <$> as_int
  else if decide (key = "relative_y") then
    (λ n, I3barClickEvent.mk name inst x y button event rx n width height scale) <$> as_int
  else if decide (key = "width") then
    (λ n, I3barClickEvent.mk name inst x y button event rx ry n height scale) <$> as_int
  else if decide (key = "height") then
    (λ n, I3barClickEvent.mk name inst x y button event rx ry width n scale) <$> as_int
  else if decide (key = "scale") then
    (λ q, I3barClickEvent.mk name inst x y button event rx ry width height q) <$> as_float
  else Some ev.

Definition json_unmarshal (raw : string) : res string I3barClickEvent.t :=
  match read_object raw with
  | None => Err "invalid character"
  | Some members =>
      match foldl (λ acc m, ev ← acc; store_member ev m)
                  (Some (I3barClickEvent.mk "" "" 0 0 0 0 0 0 0 0 0))
                  members with
      | Some ev => Ok ev
      | None => Err "cannot unmarshal value into Go struct field"
      end
  end.

(** *** The runtime *)

#[export] Instance runtime : Runtime := {|
  ParseFloat := parse_decimal;
  FormatFloat := format_decimal;
  OS := nat;
  LookPath := look_path;
  CmdOutput := cmd_output;
  Template := list piece;
  TemplateParse := template_parse;
  TemplateExecute := template_execute;
  JsonMarshal := json_marshal;
  JsonUnmarshal := json_unmarshal
|}.

(** The process at start: nothing printed, logged or started yet. *)
Definition start (env : gmap string string) : Proc :=
  mkProc 0%nat env [] [] [] [].

(** *** Configurations and input used in the worked examples *)

(** [output: { full_text: "{{.Text}}" }] *)
Definition text_output : Output.t :=
  Output.set Output.FFullText "{{.Text}}" Output.zero.

(** [output: { full_text: "{{Symbol .Text}}" }] *)
Definition symbol_output : Output.t :=
  Output.set Output.FFullText "{{Symbol .Text}}" Output.zero.

(** Block [A] prints 42, block [B] exits with status 1. *)
Definition block_A : Block.t :=
  Block.mk "A" 1 "" "" "echo 42" text_output ∅.
Definition block_B : Block.t :=
  Block.mk "B" 1 "" "" "false" text_output ∅.
Definition config_AB : Config.t :=
  Config.mk 0 0 "" [] [block_A; block_B] false.

(** A block whose name is itself a template. *)
Definition block_templated : Block.t :=
  Block.mk "{{.Text}}" 1 "" "" "echo 42" text_output ∅.
Definition config_templated : Config.t :=
  Config.mk 0 0 "" [] [block_templated] false.

(** A thermometer that reads -50 and shows it on the default ramp. *)
Definition block_cold : Block.t :=
  Block.mk "temperature" 1 "" "" "echo -50" symbol_output ∅.
Definition config_cold : Config.t :=
  Config.mk 0 0 "" [] [block_cold] false.

(** A block with a handler for the left button only. *)
Definition block_vol : Block.t :=
  Block.mk "vol" 1 "" "" "echo 50" text_output
           {[ "Left" := MouseEvent.mk "" "" "true" ]}.
Definition config_vol : Config.t :=
  Config.mk 0 0 "" [] [block_vol] true.

(** The line the bar sends for a click: a comma, then the object. *)
Definition click (name : string) (button x y : Z) : string :=
  ",{" +:+ quoted "name" +:+ ":" +:+ quoted name
  +:+ "," +:+ quoted "button" +:+ ":" +:+ Strconv.Itoa button
  +:+ "," +:+ quoted "x" +:+ ":" +:+ Strconv.Itoa x
  +:+ "," +:+ quoted "y" +:+ ":" +:+ Strconv.Itoa y +:+ "}".

Definition path_only : gmap string string := {[ "PATH" := "/bin" ]}.

(** Three symbol lists, two of them named [battery]; the first of the two
    has no symbols. *)
Definition config_lists : Config.t :=
  Config.mk 0 0 "" [SymbolList.mk "moon" (Some ["n"; "f"]);
                    SymbolList.mk "battery" None;
                    SymbolList.mk "battery" (Some ["lo"; "hi"])]
            [block_vol] true.

(** A block whose configured output sets the name of the item. *)
Definition block_named : Block.t :=
  Block.mk "A" 1 "" "" "echo 42"
           (Output.set Output.FName "mine" text_output) ∅.

End Demo.

(** ** Vocabulary of the properties *)

(** The position on a ramp of [len] glyphs that the first branch of
    [Symbol] computes for a (scaled) reading. *)
Definition ramp_index (scaledNumber : Q) (len : nat) : Z :=
  Float.to_int ((scaledNumber / 100) * Float.of_int (Z.of_nat len - 1))%Q.

(** The writes of a stream of snapshots: a comma before each one but the
    first. *)
Definition frame (snapshots : list string) : list write :=
  match snapshots with
  | [] => []
  | j :: js => WSnapshot j :: flat_map (λ j, [WComma; WSnapshot j]) js
  end.

Section Vocabulary.
Context `{Runtime}.

(** The text [Symbol] hands to [strconv.ParseFloat]. *)
Definition number_text (arg0 : value) : string :=
  Strings.TrimSpace (Strings.TrimSuffix (Sprint arg0) "%").

(** An explicit glyph list, or the name of a configured one. *)
Definition denotes (config : Config.t) (arg : value) (L : list string)
  : Prop :=
  arg = VStrings L
  ∨ ∃ name, arg = VString name ∧ findSymbolList config name = Some L.

(** The log is only ever appended to: [prepend_log lg st] is [st] with
    [lg] in front of its log. *)
Definition prepend_log (lg : list logmsg) (st : Proc) : Proc :=
  mkProc (world st) (environ st) (stdout st) (stderr st)
         (lg ++ logged st) (started st).

(** Apply [prepend_log] to the state a step returns. *)
Definition relog {A : Type} (lg : list logmsg) (p : A * Proc) : A * Proc :=
  (p.1, prepend_log lg p.2).

(** What running a child process leaves untouched. *)
Definition same_streams (st st' : Proc) : Prop :=
  stdout st' = stdout st ∧ stderr st' = stderr st
  ∧ environ st' = environ st ∧ logged st' = logged st.

(** [st] with an empty log. *)
Definition clear_log (st : Proc) : Proc :=
  mkProc (world st) (environ st) (stdout st) (stderr st) [] (started st).

(** An input line that is a click event, with no block of its name or
    with no handler for its button on the block it is routed to. *)
Definition unrouted (config : Config.t) (raw : string) : Prop :=
  String.length (Strings.TrimSpace raw) ≠ 0%nat ∧ raw ≠ ","
  ∧ ∃ ev, (∀ st, (NewEventFromRaw raw st).1 = Ok ev)
      ∧ ((∀ block, block ∈ Config.Blocks config →
                   Block.Name block ≠ I3barClickEvent.Name ev)
         ∨ ∃ block,
             findBlockByName config (I3barClickEvent.Name ev) = Some block
             ∧ Block.MouseEvents block
                 !! eventButton_String (I3barClickEvent.Button ev) = None).

(** The environment saved by the oldest of the deferred restores. *)
Fixpoint oldest_saved (defers : list deferred) : option (list string) :=
  match defers with
  | [] => None
  | d :: rest =>
      match oldest_saved rest, d with
      | Some saved, _ => Some saved
      | None, DeferRestoreEnv saved => Some saved
      | None, _ => None
      end
  end.

End Vocabulary.

(** The command line of the process a mouse event of a block runs: the
    command when there is one, else the interpreter (that of the block when
    the mouse event has none) followed by the script. *)
Definition handler_argv (block : Block.t) (mouseEvent : MouseEvent.t)
  : list string :=
  if decide (MouseEvent.Command mouseEvent ≠ "")
  then Strings.Fields (MouseEvent.Command mouseEvent)
  else Strings.Fields
         (if decide (MouseEvent.Interpreter mouseEvent = "")
          then Block.Interpreter block
          else MouseEvent.Interpreter mouseEvent)
       ++ [MouseEvent.Script mouseEvent].

(** * Properties *)

(** ** Numbers and strings *)

Lemma to_int_floor (q : Q) : (0 <= q)%Q → Float.to_int q = Qfloor q.
Proof.
  destruct q as [n d]. unfold Float.to_int, Qfloor, Qle. simpl.
  intros Hn. apply Z.quot_div_nonneg; lia.
Qed.

Lemma to_int_mono (a b : Q) :
  (0 <= a)%Q → (a <= b)%Q → Float.to_int a ≤ Float.to_int b.
Proof.
  intros Ha Hab. rewrite !to_int_floor; [| by eapply Qle_trans | done].
  by apply Qfloor_resp_le.
Qed.

Lemma to_int_nonneg (a : Q) : (0 <= a)%Q → 0 ≤ Float.to_int a.
Proof.
  intros Ha. change 0 with (Float.to_int 0). by apply to_int_mono.
Qed.

Lemma to_int_le_of_int (a : Q) (n : Z) :
  (0 <= a)%Q → (a <= Float.of_int n)%Q → Float.to_int a ≤ n.
Proof.
  intros Ha Han. rewrite to_int_floor by done.
  rewrite <- (Qfloor_Z n). by apply Qfloor_resp_le.
Qed.

Lemma ramp_fraction_mono (x y : Q) (len : nat) :
  (0 < len)%nat → (x <= y)%Q →
  ((x / 100) * Float.of_int (Z.of_nat len - 1)
   <= (y / 100) * Float.of_int (Z.of_nat len - 1))%Q.
Proof.
  intros Hlen Hxy. apply Qmult_le_compat_r.
  - unfold Qdiv. apply Qmult_le_compat_r; [done|]. by vm_compute.
  - unfold Float.of_int. change 0%Q with (inject_Z 0).
    rewrite <- Zle_Qle. lia.
Qed.

Lemma ramp_fraction_nonneg (x : Q) (len : nat) :
  (0 < len)%nat → (0 <= x)%Q →
  (0 <= (x / 100) * Float.of_int (Z.of_nat len - 1))%Q.
Proof.
  intros Hlen Hx. apply Qmult_le_0_compat.
  - unfold Qdiv. apply Qmult_le_0_compat; [done|]. by vm_compute.
  - unfold Float.of_int. change 0%Q with (inject_Z 0).
    rewrite <- Zle_Qle. lia.
Qed.


Lemma ramp_index_bounds (x : Q) (len : nat) :
  (0 < len)%nat → (0 <= x)%Q → (x <= 100)%Q →
  0 ≤ ramp_index x len < Z.of_nat len.
Proof.
  intros Hlen Hx Hx100. split.
  - apply to_int_nonneg. by apply ramp_fraction_nonneg.
  - cut (ramp_index x len ≤ Z.of_nat len - 1); [lia|].
    unfold ramp_index. apply to_int_le_of_int.
    + by apply ramp_fraction_nonneg.
    + eapply Qle_trans; [by apply (ramp_fraction_mono x 100)|].
      assert (E : ((100 / 100) * Float.of_int (Z.of_nat len - 1)
                   == Float.of_int (Z.of_nat len - 1))%Q) by field.
      rewrite E. apply Qle_refl.
Qed.

Lemma index_slice_in_range (l : list string) (i : Z) :
  0 ≤ i < Z.of_nat (length l) →
  ∃ g, l !! Z.to_nat i = Some g ∧ index_slice l i = Glyph g.
Proof.
  intros [Hi0 Hi]. unfold index_slice.
  destruct (Z.ltb_spec i 0) as [?|_]; [lia|].
  destruct (lookup_lt_is_Some_2 l (Z.to_nat i)) as [g Hg]; [lia|].
  exists g. by rewrite Hg.
Qed.


Lemma gt_0_pos (scale : Q) : Float.gt scale 0 = true → (0 < scale)%Q.
Proof.
  unfold Float.gt. rewrite negb_true_iff. intros Hle.
  apply Qnot_le_lt. intros Hle'. apply Qle_bool_iff in Hle'. congruence.
Qed.



Lemma rev_app_append (a b acc : string) :
  String.rev_app (a +:+ b) acc = String.rev_app b (String.rev_app a acc).
Proof.
  revert acc. induction a as [|c a IH]; intros acc; [done|].
  change (String c a +:+ b) with (String c (a +:+ b)). simpl. apply IH.
Qed.

Lemma rev_app_rev_app (s t u : string) :
  String.rev_app (String.rev_app s t) u = String.rev_app t (s +:+ u).
Proof.
  revert t u. induction s as [|c s IH]; intros t u; [done|].
  simpl. rewrite IH. done.
Qed.

Lemma rev_involutive (s : string) : String.rev (String.rev s) = s.
Proof.
  unfold String.rev. rewrite rev_app_rev_app. simpl.
  induction s as [|c s IH]; [done|].
  change (String c s +:+ "") with (String c (s +:+ "")). by rewrite IH.
Qed.

(** [strings.TrimSuffix] removes the percent sign a reading ends with. *)
Lemma TrimSuffix_percent (s : string) :
  Strings.TrimSuffix (s +:+ "%") "%" = s.
Proof.
  unfold Strings.TrimSuffix, String.rev at 1 2.
  rewrite rev_app_append. simpl.
  assert (E : ∀ r, Strings.CutPrefix r "" = Some r) by (by intros []).
  rewrite E. apply rev_involutive.
Qed.

(** ** The symbol resolver *)

Section SymbolProperties.
Context `{Runtime}.

Lemma Symbol_on_ramp config arg0 arg1 number L :
  ParseFloat (number_text arg0) = Some number →
  denotes config arg1 L → L ≠ [] →
  (number / 1 <= 100)%Q →
  Symbol config [arg0; arg1]
  = index_slice L (ramp_index (number / 1) (length L)).
Proof.
  intros Hparse Harg HL Hle. unfold Symbol.
  fold (number_text arg0). rewrite Hparse.
  assert (Hlen : (0 <? length L)%nat = true).
  { apply Nat.ltb_lt. destruct L; [done | simpl; lia]. }
  assert (Hlen0 : (length L =? 0)%nat = false).
  { apply Nat.eqb_neq. destruct L; [done | simpl; lia]. }
  assert (Hle' : Float.le (number / 1) 100 = true).
  { by apply Qle_bool_iff. }
  destruct Harg as [-> | (name & -> & Hfind)]; simpl.
  - rewrite Hlen. simpl. rewrite Hlen0, Hle'. done.
  - rewrite Hfind. simpl. rewrite Hlen0, Hle'. done.
Qed.




(** C10: called without any argument, [Symbol] returns the empty string:
    not the fallback glyph [?], and not an error. *)
Theorem Symbol_without_arguments (config : Config.t) :
  Symbol config [] = Glyph "".
Proof. reflexivity. Qed.



End SymbolProperties.

(** ** The scheduler *)

Section SchedulerProperties.
Context `{Runtime}.

Lemma output_of_streams argv st r st' :
  output_of argv st = (r, st') → same_streams st st'.
Proof.
  unfold output_of. destruct (CmdOutput _ _ _) as [[out|msg] w];
    intros [= <- <-]; by repeat split.
Qed.

Lemma executeScript_streams interpreter script st r st' :
  executeScript interpreter script st = (r, st') → same_streams st st'.
Proof.
  unfold executeScript. intros Hrun.
  repeat case_match; simplify_eq;
    try (by repeat split); by eapply output_of_streams.
Qed.

Lemma executeCommand_streams command st r st' :
  executeCommand command st = (r, st') → same_streams st st'.
Proof.
  unfold executeCommand. intros Hrun.
  repeat case_match; simplify_eq;
    try (by repeat split); by eapply output_of_streams.
Qed.

(** [executeBlock] prints nothing and logs one line, the name of the
    block. *)
Lemma executeBlock_streams block config st r st' :
  executeBlock block config st = (r, st') →
  stdout st' = stdout st
  ∧ logged st' = logged st ++ [LogExecutingBlock (Block.Name block)].
Proof.
  unfold executeBlock. intros Hrun.
  assert (Hstreams : ∃ r1 st1,
    (if decide (Block.Command block ≠ "")
     then executeCommand (Block.Command block)
            (log (LogExecutingBlock (Block.Name block)) st)
     else executeScript (Block.Interpreter block) (Block.Script block)
            (log (LogExecutingBlock (Block.Name block)) st)) = (r1, st1)
    ∧ same_streams (log (LogExecutingBlock (Block.Name block)) st) st1).
  { destruct (decide (Block.Command block ≠ "")).
    - destruct (executeCommand _ _) as [r1 st1] eqn:Hcmd.
      exists r1, st1. split; [done|]. by eapply executeCommand_streams.
    - destruct (executeScript _ _ _) as [r1 st1] eqn:Hcmd.
      exists r1, st1. split; [done|]. by eapply executeScript_streams. }
  destruct Hstreams as (r1 & st1 & Heq & Hout & _ & _ & Hlog).
  rewrite Heq in Hrun. simpl in Hout, Hlog.
  repeat case_match; simplify_eq; by split.
Qed.

(** The accumulator of [runBlocks] only grows at its end. *)
Lemma runBlocks_from_acc config blocks acc st :
  runBlocks_from config blocks acc st
  = match runBlocks_from config blocks [] st with
    | (Ok outputs, st') => (Ok (acc ++ outputs), st')
    | (Err err, st') => (Err err, st')
    end.
Proof.
  revert acc st. induction blocks as [|block rest IH]; intros acc st; simpl.
  - by rewrite app_nil_r.
  - destruct (executeBlock block config st) as [[output|err] st1]; [|done].
    rewrite (IH (acc ++ [output])), (IH ([] ++ [output])).
    destruct (runBlocks_from config rest [] st1) as [[outputs|err] st2];
      [|done].
    by rewrite <- app_assoc.
Qed.

Lemma runBlocks_from_streams config blocks acc st r st' :
  runBlocks_from config blocks acc st = (r, st') →
  stdout st' = stdout st.
Proof.
  revert acc st. induction blocks as [|block rest IH]; intros acc st; simpl.
  - by intros [= <- <-].
  - destruct (executeBlock block config st) as [[output|err] st1] eqn:Hb;
      apply executeBlock_streams in Hb as [Hout _].
    + intros Hrest. apply IH in Hrest. congruence.
    + intros [= <- <-]. done.
Qed.

(** A block that fails after the blocks before it succeeded makes
    [runBlocks] fail with its error; the outputs collected so far are
    dropped. *)
Lemma runBlocks_from_failure config pre block post outputs st st1 err st2 :
  runBlocks_from config pre [] st = (Ok outputs, st1) →
  executeBlock block config st1 = (Err err, st2) →
  runBlocks_from config (pre ++ block :: post) [] st = (Err err, st2)
  ∧ logged st2
    = logged st ++ (LogExecutingBlock ∘ Block.Name <$> pre ++ [block]).
Proof.
  revert outputs st. induction pre as [|b pre IH]; intros outputs st; simpl.
  - intros [= <- <-] Hfail. rewrite Hfail. split; [done|].
    by apply executeBlock_streams in Hfail as [_ ?].
  - destruct (executeBlock b config st) as [[output|e] st0] eqn:Hb; [|done].
    apply executeBlock_streams in Hb as [_ Hlog].
    rewrite runBlocks_from_acc.
    destruct (runBlocks_from config pre [] st0) as [[outs|e] st0'] eqn:Hpre;
      [|done].
    intros [= <- <-] Hfail.
    destruct (IH outs st0 Hpre Hfail) as [Hrun Hlog2].
    rewrite runBlocks_from_acc, Hrun. split; [done|].
    rewrite Hlog2, Hlog, <- app_assoc. done.
Qed.

Lemma filter_error_reports_blocks (blocks : list Block.t) :
  List.filter is_error_report (LogExecutingBlock ∘ Block.Name <$> blocks) = [].
Proof. induction blocks; simpl; auto. Qed.

(** The ways a block can fail. *)
Lemma executeScript_interpreter_missing script st :
  executeScript "" script st = (Err InterpreterNotSpecified, st).
Proof. done. Qed.

Lemma executeScript_interpreter_not_found interpreter script st part0 parts1 :
  interpreter ≠ "" →
  Strings.Fields interpreter = part0 :: parts1 →
  (∀ path, LookPath (world st) (environ st) part0 = Ok path → path = "") →
  executeScript interpreter script st
  = (Err (InterpreterDoesNotExist interpreter), st).
Proof.
  intros Hne Hfields Hlook. unfold executeScript.
  destruct (decide (interpreter = "")); [done|]. rewrite Hfields.
  destruct (LookPath _ _ _) as [path|msg]; [|done].
  rewrite (Hlook path eq_refl). done.
Qed.

Lemma output_of_failure argv st msg w :
  CmdOutput (world st) (environ st) argv = (Err msg, w) →
  (output_of argv st).1 = Err (ProcessError msg).
Proof. unfold output_of. by intros ->. Qed.

(** An error of the command or script is the error of the block. *)
Lemma executeBlock_process_failure block config st err st1 :
  (if decide (Block.Command block ≠ "")
   then executeCommand (Block.Command block)
          (log (LogExecutingBlock (Block.Name block)) st)
   else executeScript (Block.Interpreter block) (Block.Script block)
          (log (LogExecutingBlock (Block.Name block)) st))
  = (Err err, st1) →
  executeBlock block config st = (Err err, st1).
Proof. unfold executeBlock. by intros ->. Qed.

(** So is an error of a template. *)
Lemma executeBlock_template_failure block config st outputText st1 err :
  (if decide (Block.Command block ≠ "")
   then executeCommand (Block.Command block)
          (log (LogExecutingBlock (Block.Name block)) st)
   else executeScript (Block.Interpreter block) (Block.Script block)
          (log (LogExecutingBlock (Block.Name block)) st))
  = (Ok outputText, st1) →
  Output.Name (Block.Output block) = "" →
  applyTemplates config (Strings.TrimSpace outputText) st1
    Output.string_fields
    (Output.set Output.FName (Block.Name block) (Block.Output block))
  = Err err →
  executeBlock block config st = (Err err, st1).
Proof.
  unfold executeBlock. intros -> Hname Htmpl.
  destruct (decide _); [done|]. by rewrite Htmpl.
Qed.

(** Every failing run of [runBlocks] is the failure of one block, after
    the blocks before it succeeded. *)
Lemma runBlocks_from_error_inv config blocks st err st' :
  runBlocks_from config blocks [] st = (Err err, st') →
  ∃ pre block post outputs st1,
    blocks = pre ++ block :: post
    ∧ runBlocks_from config pre [] st = (Ok outputs, st1)
    ∧ executeBlock block config st1 = (Err err, st').
Proof.
  revert st. induction blocks as [|b rest IH]; intros st; simpl; [done|].
  destruct (executeBlock b config st) as [[output|e] st0] eqn:Hb.
  - rewrite runBlocks_from_acc.
    destruct (runBlocks_from config rest [] st0) as [[outs|e] st2] eqn:Hrest;
      [done|].
    intros [= -> ->].
    destruct (IH st0 Hrest) as (pre & block & post & outputs & st1 & -> & Hpre & Hfail).
    exists (b :: pre), block, post, ([output] ++ outputs), st1.
    split; [done|]. split; [|done].
    simpl. rewrite Hb, runBlocks_from_acc, Hpre. done.
  - intros [= -> ->]. exists [], b, rest, [], st. by split_and!.
Qed.

(** C1: when a block fails on a tick (after the blocks declared before
    it succeeded), the tick prints nothing (no snapshot, not even the
    outputs already collected), logs the error, once, and the loop goes
    on with the next tick. *)
Theorem failing_block_skips_tick (config : Config.t) (first : bool)
  (st : Proc) (pre post : list Block.t) (block : Block.t)
  (outputs : list Output.t) (st1 st2 : Proc) (err : error) :
  Config.Blocks config = pre ++ block :: post →
  runBlocks_from config pre [] st = (Ok outputs, st1) →
  executeBlock block config st1 = (Err err, st2) →
  ∃ st',
    tick config first st = (first, st')
    ∧ stdout st' = stdout st
    ∧ logged st'
      = logged st ++ (LogExecutingBlock ∘ Block.Name <$> pre ++ [block])
                  ++ [LogTickError err]
    ∧ List.filter is_error_report (logged st')
      = List.filter is_error_report (logged st) ++ [LogTickError err]
    ∧ ∀ ticks, tickLoop config (S ticks) first st
               = tickLoop config ticks first st'.
Proof.
  intros Hblocks Hpre Hfail.
  destruct (runBlocks_from_failure config pre block post outputs
              st st1 err st2 Hpre Hfail) as [Hrun Hlog].
  assert (Htick : tick config first st = (first, log (LogTickError err) st2)).
  { unfold tick, runBlocks. by rewrite Hblocks, Hrun. }
  exists (log (LogTickError err) st2). split_and!.
  - done.
  - simpl. by eapply runBlocks_from_streams.
  - simpl. by rewrite Hlog, <- app_assoc.
  - simpl. rewrite Hlog, !List.filter_app, filter_error_reports_blocks.
    by rewrite app_nil_r.
  - intros ticks. simpl. by rewrite Htick.
Qed.

End SchedulerProperties.

(** ** The protocol writer *)

Lemma contains_app (c : ascii) (a b : string) :
  Strings.contains c (a +:+ b) = Strings.contains c a || Strings.contains c b.
Proof.
  induction a as [|d a IH]; simpl; [done|].
  change (String d a +:+ b) with (String d (a +:+ b)). simpl.
  destruct (decide (c = d)); [done | apply IH].
Qed.



Lemma frame_snoc (snapshots : list string) (j : string) :
  frame (snapshots ++ [j])
  = frame snapshots
    ++ (if bool_decide (snapshots = []) then [] else [WComma]) ++ [WSnapshot j].
Proof.
  destruct snapshots as [|j0 js]; simpl; [done|].
  by rewrite flat_map_app.
Qed.


Section ProtocolProperties.
Context `{Runtime}.




(** Only a closed channel would let [main] print the closing bracket. *)
Lemma main_closed_channel (config : Config.t) (ticks : nat) (st : Proc) :
  stdout (main config ticks true st)
  = stdout (main config ticks false st) ++ [WClose].
Proof.
  unfold main. by destruct (tickLoop _ _ _ _) as [first st'].
Qed.

End ProtocolProperties.

(** ** The click dispatcher *)

Lemma findBlockByName_in_exact (blocks : list Block.t) (name : string)
  (block : Block.t) :
  findBlockByName_in blocks name = Some block →
  block ∈ blocks ∧ Block.Name block = name.
Proof.
  induction blocks as [|b rest IH]; simpl; [done|].
  destruct (decide (Block.Name b = name)) as [E|_].
  - intros [= <-]. split; [apply list_elem_of_here | done].
  - intros Hrest. destruct (IH Hrest) as [Hin Hname].
    split; [by apply list_elem_of_further | done].
Qed.

Lemma findBlockByName_in_none (blocks : list Block.t) (name : string) :
  (∀ block, block ∈ blocks → Block.Name block ≠ name) →
  findBlockByName_in blocks name = None.
Proof.
  induction blocks as [|b rest IH]; simpl; [done|]. intros Hall.
  destruct (decide (Block.Name b = name)) as [E|_].
  - destruct (Hall b); [apply list_elem_of_here | done].
  - apply IH. intros block Hin. apply Hall. by apply list_elem_of_further.
Qed.

Section DispatcherProperties.
Context `{Runtime}.

Lemma log_prepend lg m st :
  log m (prepend_log lg st) = prepend_log lg (log m st).
Proof. unfold log, prepend_log. simpl. by rewrite app_assoc. Qed.

Lemma relog_pair {A : Type} lg (a : A) st :
  relog lg (a, st) = (a, prepend_log lg st).
Proof. done. Qed.

Lemma with_environ_prepend lg f st :
  with_environ f (prepend_log lg st) = prepend_log lg (with_environ f st).
Proof. done. Qed.

Lemma output_of_prepend lg argv st :
  output_of argv (prepend_log lg st) = relog lg (output_of argv st).
Proof.
  unfold output_of. simpl.
  by destruct (CmdOutput _ _ _) as [[out|msg] w].
Qed.

Lemma executeScript_prepend lg interpreter script st :
  executeScript interpreter script (prepend_log lg st)
  = relog lg (executeScript interpreter script st).
Proof.
  unfold executeScript. simpl.
  repeat case_match; try done; apply output_of_prepend.
Qed.

Lemma executeCommand_prepend lg command st :
  executeCommand command (prepend_log lg st)
  = relog lg (executeCommand command st).
Proof.
  unfold executeCommand.
  repeat case_match; try done; apply output_of_prepend.
Qed.

Lemma NewEventFromRaw_prepend lg raw st :
  NewEventFromRaw raw (prepend_log lg st)
  = relog lg (NewEventFromRaw raw st).
Proof.
  unfold NewEventFromRaw. rewrite log_prepend.
  destruct (JsonUnmarshal _); [done|]. by rewrite !log_prepend.
Qed.

Lemma handleRecord_prepend lg config raw defers st :
  handleRecord config raw defers (prepend_log lg st)
  = relog lg (handleRecord config raw defers st).
Proof.
  unfold handleRecord. rewrite log_prepend.
  destruct (decide _); [by rewrite log_prepend|].
  destruct (decide _); [by rewrite log_prepend|].
  rewrite NewEventFromRaw_prepend.
  destruct (NewEventFromRaw raw _) as [[ev|err] st1]; rewrite relog_pair;
    [|by rewrite log_prepend].
  destruct (findBlockByName _ _) as [block|]; [|by rewrite log_prepend].
  rewrite log_prepend.
  destruct (Block.MouseEvents block !! _) as [mouseEvent|];
    [|by rewrite log_prepend].
  rewrite log_prepend.
  destruct (decide _); [by rewrite log_prepend|].
  rewrite log_prepend.
  change (environ (prepend_log lg ?s)) with (environ s).
  rewrite !with_environ_prepend, !log_prepend.
  destruct (decide _).
  - rewrite executeCommand_prepend.
    destruct (executeCommand _ _) as [[output|err] st2]; rewrite relog_pair;
      by rewrite ?log_prepend.
  - rewrite executeScript_prepend.
    destruct (executeScript _ _ _) as [[output|err] st2]; rewrite relog_pair;
      by rewrite ?log_prepend.
Qed.

Lemma eventLoop_prepend lg config lines defers st :
  eventLoop config lines defers (prepend_log lg st)
  = relog lg (eventLoop config lines defers st).
Proof.
  revert defers st. induction lines as [|raw rest IH]; intros defers st;
    simpl; [done|].
  rewrite handleRecord_prepend.
  destruct (handleRecord config raw defers st) as [defers1 st1].
  apply IH.
Qed.

Lemma run_deferred_prepend lg defers st :
  foldl (λ st d, run_deferred d st) (prepend_log lg st) defers
  = prepend_log lg (foldl (λ st d, run_deferred d st) st defers).
Proof.
  revert st. induction defers as [|d defers IH]; intros st; simpl; [done|].
  rewrite <- IH. f_equal. destruct d; simpl; [apply log_prepend | done | done].
Qed.

(** The first component of [NewEventFromRaw] does not depend on the
    state, and the state only gains log lines. *)
Lemma NewEventFromRaw_clear_log raw st :
  clear_log (NewEventFromRaw raw st).2 = clear_log st.
Proof. unfold NewEventFromRaw. by destruct (JsonUnmarshal _). Qed.

(** An unrouted click event changes the log and nothing else: no process
    is started, the environment and the deferred calls stay as they
    are. *)
Lemma handleRecord_unrouted config raw defers st :
  unrouted config raw →
  ∃ st', handleRecord config raw defers st = (defers, st')
         ∧ clear_log st' = clear_log st.
Proof.
  intros (Hne & Hcomma & ev & Hev & Hroute). unfold handleRecord.
  destruct (decide _) as [E|_]; [done|].
  destruct (decide _) as [E|_]; [done|].
  specialize (Hev (log (LogRawInputLine raw) st)).
  pose proof (NewEventFromRaw_clear_log raw (log (LogRawInputLine raw) st))
    as Hclear.
  destruct (NewEventFromRaw raw _) as [r st1]. simpl in Hev, Hclear. subst r.
  destruct Hroute as [Hnone | (block & Hfind & Hhandler)].
  - unfold findBlockByName. rewrite findBlockByName_in_none by done.
    eexists. split; [done|]. exact Hclear.
  - rewrite Hfind, Hhandler.
    eexists. split; [done|]. exact Hclear.
Qed.

(** C7: a click event is routed to the first block with exactly its
    name; when there is none, or that block has no handler for the button
    of the event, the event is dropped: no process is started, nothing
    but the log changes, and the loop goes on with the next line. *)
Theorem unrouted_click_is_dropped (config : Config.t) (raw : string)
  (defers : list deferred) (st : Proc) :
  unrouted config raw →
  ∃ st',
    handleRecord config raw defers st = (defers, st')
    ∧ started st' = started st
    ∧ environ st' = environ st
    ∧ stdout st' = stdout st
    ∧ stderr st' = stderr st
    ∧ world st' = world st
    ∧ ∀ rest, eventLoop config (raw :: rest) defers st
              = eventLoop config rest defers st'.
Proof.
  intros Hraw.
  destruct (handleRecord_unrouted config raw defers st Hraw)
    as (st' & Hstep & Hclear).
  exists st'. injection Hclear as Hw He Ho Hr Hs.
  split_and!; try done.
  intros rest. simpl. by rewrite Hstep.
Qed.

(** Any number of unrouted click events starts no process. *)
Lemma unrouted_clicks_start_nothing config records defers st :
  Forall (unrouted config) records →
  ∃ st', eventLoop config records defers st = (defers, st')
         ∧ clear_log st' = clear_log st.
Proof.
  intros Hall. revert st.
  induction Hall as [|raw rest Hraw _ IH]; intros st; simpl.
  - by exists st.
  - destruct (handleRecord_unrouted config raw defers st Hraw)
      as (st1 & -> & Hclear1).
    destruct (IH st1) as (st2 & -> & Hclear2).
    exists st2. split; [done | congruence].
Qed.

(** C9: the first line of standard input is consumed before the event
    loop and only logged: whatever it is, also a well-formed click event,
    the process ends in the same state but for that one log entry. *)
Theorem first_line_is_discarded (config : Config.t) (rest : list string)
  (scanErr : option string) (st : Proc) :
  ∃ final : Proc, ∀ initial : string,
    handleClickEvents config (initial :: rest) scanErr st
    = prepend_log (logged st ++ [LogStarting; LogInitialLine initial]) final.
Proof.
  exists (let '(defers, st) :=
            eventLoop config rest [DeferLogFinished] (clear_log st) in
          let st := match scanErr with
                    | Some msg => log (LogStdinError msg) st
                    | None => st
                    end in
          foldl (λ st d, run_deferred d st) st defers).
  intros initial. unfold handleClickEvents.
  assert (Hstart : log (LogInitialLine initial) (log LogStarting st)
                   = prepend_log (logged st ++ [LogStarting; LogInitialLine initial])
                                 (clear_log st)).
  { unfold log, prepend_log, clear_log. simpl.
    by rewrite app_nil_r, <- app_assoc. }
  rewrite Hstart, eventLoop_prepend.
  destruct (eventLoop config rest _ (clear_log st)) as [defers st1].
  rewrite relog_pair.
  destruct scanErr as [msg|]; [rewrite log_prepend|];
    apply run_deferred_prepend.
Qed.

End DispatcherProperties.

(** ** The environment around a click handler *)

Lemma Cut_entry (key value : string) :
  Strings.contains "=" key = false →
  Strings.Cut (key +:+ "=" +:+ value) "=" = (key, value, true).
Proof.
  induction key as [|c key IH]; simpl; [done|].
  change (String c key +:+ "=" +:+ value)
    with (String c (key +:+ "=" +:+ value)).
  destruct (decide ("="%char = c)) as [E|Hne]; [discriminate|]. intros Hkey.
  cbn [Strings.Cut]. destruct (decide (c = "="%char)); [done|].
  by rewrite (IH Hkey).
Qed.

Lemma valid_no_equals (key value : string) :
  Os.valid key value = true → Strings.contains "=" key = false.
Proof.
  unfold Os.valid. rewrite !andb_true_iff, !negb_true_iff.
  by intros [[[_ ?] _] _].
Qed.

Lemma foldl_insert_list_to_map (l : list (string * string)) :
  foldl (λ (m : gmap string string) kv, <[kv.1 := kv.2]> m) ∅ l
  = list_to_map (reverse l).
Proof.
  induction l as [|kv l IH] using rev_ind; [done|].
  by rewrite foldl_snoc, reverse_snoc, IH.
Qed.

(** Putting back what [os.Environ] returned gives the environment it was
    taken from, when all its variables are ones [os.Setenv] accepts. *)
Lemma restoreEnv_Environ (env current : gmap string string) :
  map_Forall (λ key value, Os.valid key value = true) env →
  restoreEnv (Os.Environ env) current = env.
Proof.
  intros Hvalid. unfold restoreEnv, Os.Environ, Os.Clearenv.
  assert (Hstep : ∀ (l : list (string * string)) (acc : gmap string string),
    (∀ kv, kv ∈ l → Os.valid kv.1 kv.2 = true) →
    foldl (λ env entry,
             let '(key, value, _) := Strings.Cut entry "=" in
             Os.Setenv key value env) acc
          ((λ kv : string * string, kv.1 +:+ "=" +:+ kv.2) <$> l)
    = foldl (λ (m : gmap string string) kv, <[kv.1 := kv.2]> m) acc l).
  { induction l as [|[k v] l IH]; intros acc Hl; simpl; [done|].
    assert (Hkv : Os.valid k v = true) by (apply (Hl (k, v)), list_elem_of_here).
    rewrite (Cut_entry k v) by (by eapply valid_no_equals).
    unfold Os.Setenv at 2. rewrite Hkv. apply IH.
    intros kv Hin. apply Hl. by apply list_elem_of_further. }
  rewrite Hstep.
  - rewrite foldl_insert_list_to_map.
    rewrite (list_to_map_proper _ (map_to_list env)).
    + apply list_to_map_to_list.
    + rewrite fmap_reverse, reverse_Permutation. apply NoDup_fst_map_to_list.
    + apply reverse_Permutation.
  - intros [k v] Hin. apply elem_of_map_to_list in Hin. by apply (Hvalid k v).
Qed.

Section EnvironmentProperties.
Context `{Runtime}.

(** Deferred calls run most recent first, so the oldest saved environment
    is the one that stays. *)
Lemma run_deferred_environ (defers : list deferred) (st : Proc) :
  environ (foldl (λ st d, run_deferred d st) st defers)
  = match oldest_saved defers with
    | Some saved => restoreEnv saved ∅
    | None => environ st
    end.
Proof.
  revert st. induction defers as [|d rest IH]; intros st; simpl; [done|].
  rewrite IH. destruct (oldest_saved rest); [done|]. by destruct d.
Qed.

(** One input line either leaves the environment and the deferred calls as
    they are, or sets the three variables of a click and defers the restore
    of the environment it found. *)
Lemma handleRecord_environ config raw defers st defers' st' :
  handleRecord config raw defers st = (defers', st') →
  (defers' = defers ∧ environ st' = environ st)
  ∨ ∃ ev,
      defers' = DeferRestoreEnv (Os.Environ (environ st)) :: DeferCancel :: defers
      ∧ environ st'
        = Os.Setenv "Y" (Strconv.Itoa (I3barClickEvent.Y ev))
            (Os.Setenv "X" (Strconv.Itoa (I3barClickEvent.X ev))
               (Os.Setenv "BUTTON"
                  (eventButton_String (I3barClickEvent.Button ev))
                  (environ st))).
Proof.
  unfold handleRecord.
  destruct (decide _); [intros [= <- <-]; by left|].
  destruct (decide _); [intros [= <- <-]; by left|].
  pose proof (NewEventFromRaw_clear_log raw (log (LogRawInputLine raw) st))
    as Hclear.
  destruct (NewEventFromRaw raw _) as [[ev|err] st1]; simpl in Hclear;
    injection Hclear as _ Henv _ _ _;
    [|intros [= <- <-]; by left].
  destruct (findBlockByName _ _) as [block|]; [|intros [= <- <-]; by left].
  destruct (Block.MouseEvents block !! _) as [mouseEvent|];
    [|intros [= <- <-]; by left].
  destruct (decide _); [intros [= <- <-]; by left|].
  intros Hrun. right. exists ev.
  destruct (if decide (MouseEvent.Command mouseEvent ≠ "") then _ else _)
    as [r st2] eqn:Hhandler.
  assert (Hst2 : environ st2
                 = Os.Setenv "Y" (Strconv.Itoa (I3barClickEvent.Y ev))
                     (Os.Setenv "X" (Strconv.Itoa (I3barClickEvent.X ev))
                        (Os.Setenv "BUTTON"
                           (eventButton_String (I3barClickEvent.Button ev))
                           (environ st1)))).
  { destruct (decide (MouseEvent.Command mouseEvent ≠ "")).
    - by apply executeCommand_streams in Hhandler as (_ & _ & -> & _).
    - by apply executeScript_streams in Hhandler as (_ & _ & -> & _). }
  rewrite Henv in Hst2.
  cbn [environ log] in Hrun. rewrite Henv in Hrun.
  destruct r; injection Hrun as <- <-; by split.
Qed.

(** While the loop runs, the environment the function started with is
    either still in place or saved by the oldest deferred restore. *)
Lemma eventLoop_oldest_saved config lines defers st env0 :
  match oldest_saved defers with
  | Some saved => saved = Os.Environ env0
  | None => environ st = env0
  end →
  match oldest_saved (eventLoop config lines defers st).1 with
  | Some saved => saved = Os.Environ env0
  | None => environ (eventLoop config lines defers st).2 = env0
  end.
Proof.
  revert defers st. induction lines as [|raw rest IH]; intros defers st Hinv;
    simpl; [done|].
  destruct (handleRecord config raw defers st) as [defers1 st1] eqn:Hstep.
  apply IH.
  apply handleRecord_environ in Hstep as [[-> ->] | (ev & -> & _)]; [done|].
  simpl. destruct (oldest_saved defers); [done | by rewrite Hinv].
Qed.

(** X27: when [handleClickEvents] returns, the environment is the one
    it started with, whatever the clicks and their handlers were. *)
Lemma handleClickEvents_restores_environ config lines scanErr st :
  map_Forall (λ key value, Os.valid key value = true) (environ st) →
  environ (handleClickEvents config lines scanErr st) = environ st.
Proof.
  intros Hvalid. unfold handleClickEvents.
  set (st0 := match lines with
              | initial :: rest => (rest, log (LogInitialLine initial) (log LogStarting st))
              | [] => ([], log LogStarting st)
              end).
  assert (Hst0 : environ st0.2 = environ st) by (by destruct lines).
  destruct st0 as [lines' st0']. simpl in Hst0.
  pose proof (eventLoop_oldest_saved config lines' [DeferLogFinished] st0'
                (environ st) Hst0) as Hinv.
  destruct (eventLoop config lines' _ st0') as [defers st1]. simpl in Hinv.
  rewrite run_deferred_environ.
  destruct (oldest_saved defers) as [saved|].
  - subst saved. by apply restoreEnv_Environ.
  - by destruct scanErr.
Qed.

End EnvironmentProperties.

(** ** The name of a rendered item *)

Section NameProperties.
Context `{Runtime}.





(** A configuration that sets the name of the item itself is refused:
    such a block never yields an item. *)
Lemma executeBlock_preset_name_rejected block config st r st' :
  Output.Name (Block.Output block) ≠ "" →
  executeBlock block config st = (r, st') →
  ∃ err, r = Err err.
Proof.
  unfold executeBlock. intros Hname Hrun.
  destruct (if decide (Block.Command block ≠ "") then _ else _)
    as [[outputText|err] st1].
  - destruct (decide (Output.Name (Block.Output block) ≠ "")); [|done].
    injection Hrun as <- <-. by eexists.
  - injection Hrun as <- <-. by eexists.
Qed.

End NameProperties.

(** ** More on numbers *)


Lemma to_int_opp (q : Q) : Float.to_int (- q) = - Float.to_int q.
Proof. destruct q as [n d]. unfold Float.to_int. simpl. apply Z.quot_opp_l. lia. Qed.

(** [int(f)] depends on the value of the number only. *)
Lemma to_int_comp (a b : Q) : (a == b)%Q → Float.to_int a = Float.to_int b.
Proof.
  intros Hab. destruct (Qlt_le_dec a 0) as [Hneg | Hpos].
  - assert (Ha : (0 <= - a)%Q).
    { apply Qlt_le_weak in Hneg. apply Qopp_le_compat in Hneg. exact Hneg. }
    assert (Hb : (0 <= - b)%Q) by (by rewrite <- Hab).
    assert (E : Float.to_int (- a) = Float.to_int (- b)).
    { rewrite !to_int_floor by done. by rewrite Hab. }
    rewrite !to_int_opp in E. lia.
  - assert (Hb : (0 <= b)%Q) by (by rewrite <- Hab).
    rewrite !to_int_floor by done. by rewrite Hab.
Qed.

Lemma le_comp (a b c : Q) : (a == b)%Q → Float.le a c = Float.le b c.
Proof.
  intros Hab. unfold Float.le.
  destruct (Qle_bool a c) eqn:Ha, (Qle_bool b c) eqn:Hb; try done.
  - apply Qle_bool_iff in Ha. rewrite Hab in Ha. apply Qle_bool_iff in Ha.
    congruence.
  - apply Qle_bool_iff in Hb. rewrite <- Hab in Hb. apply Qle_bool_iff in Hb.
    congruence.
Qed.


Lemma Min_comp (a b c : Q) :
  (b == c)%Q → (Float.Min a b == Float.Min a c)%Q.
Proof.
  intros Hbc. unfold Float.Min.
  destruct (Qle_bool a b) eqn:Hb, (Qle_bool a c) eqn:Hc; try done.
  - apply Qle_bool_iff in Hb. rewrite Hbc in Hb. apply Qle_bool_iff in Hb.
    congruence.
  - apply Qle_bool_iff in Hc. rewrite <- Hbc in Hc. apply Qle_bool_iff in Hc.
    congruence.
Qed.

(** ** More on the symbol resolver *)

Section SymbolMore.
Context `{Runtime}.




(** X3: on a ramp of two or more glyphs the last glyph is reserved for
    the reading 100 itself: every reading from 0 up to, but not including,
    100 shows a glyph before the last. *)
Theorem Symbol_last_glyph_only_at_100 (config : Config.t) (arg0 arg1 : value)
  (number : Q) (L : list string) :
  ParseFloat (number_text arg0) = Some number →
  denotes config arg1 L →
  (2 ≤ length L)%nat →
  (0 <= number)%Q → (number < 100)%Q →
  ∃ (i : nat) (g : string),
    (i < length L - 1)%nat ∧ L !! i = Some g
    ∧ Symbol config [arg0; arg1] = Glyph g.
Proof.
  intros Hparse Harg Hlen H0 H100.
  assert (HL : L ≠ []) by (destruct L; [simpl in Hlen; lia | done]).
  assert (E1 : (number / 1 == number)%Q) by field.
  assert (H0' : (0 <= number / 1)%Q) by (by rewrite E1).
  assert (H100' : (number / 1 <= 100)%Q) by (rewrite E1; by apply Qlt_le_weak).
  rewrite (Symbol_on_ramp config arg0 arg1 number L) by done.
  destruct (ramp_index_bounds (number / 1) (length L)) as [Hlo Hhi];
    [lia | done | done |].
  destruct (index_slice_in_range L (ramp_index (number / 1) (length L)))
    as (g & Hg & Hs); [done|].
  exists (Z.to_nat (ramp_index (number / 1) (length L))), g.
  split; [|done].
  cut (ramp_index (number / 1) (length L) < Z.of_nat (length L) - 1); [lia|].
  unfold ramp_index. rewrite to_int_floor by (apply ramp_fraction_nonneg; [lia|done]).
  rewrite Zlt_Qlt.
  eapply Qle_lt_trans; [apply Qfloor_le|].
  unfold Float.of_int.
  assert (E : (inject_Z (Z.of_nat (length L) - 1)
               == 100 / 100 * inject_Z (Z.of_nat (length L) - 1))%Q) by field.
  rewrite E at 2. apply Qmult_lt_compat_r.
  - change 0%Q with (inject_Z 0). rewrite <- Zlt_Qlt. lia.
  - unfold Qdiv. apply Qmult_lt_compat_r; [by vm_compute|]. by rewrite E1.
Qed.

(** X4: a fourth argument is a scale only when it is a float above zero;
    any other fourth argument (zero, a negative number, a string, an
    integer) is ignored. *)
Theorem Symbol_ignores_bad_scale (config : Config.t) (a0 a1 a2 a3 : value) :
  (∀ s, a3 = VFloat s → Float.gt s 0 = false) →
  Symbol config [a0; a1; a2; a3] = Symbol config [a0; a1; a2].
Proof.
  intros Hbad. unfold Symbol.
  destruct (ParseFloat _) as [number|]; [|done]. cbv zeta.
  change ([a0; a1; a2; a3] !! 1%nat) with (Some a1).
  change ([a0; a1; a2; a3] !! 2%nat) with (Some a2).
  change ([a0; a1; a2; a3] !! 3%nat) with (Some a3).
  change ([a0; a1; a2] !! 1%nat) with (Some a1).
  change ([a0; a1; a2] !! 2%nat) with (Some a2).
  change ([a0; a1; a2] !! 3%nat) with (@None value).
  match goal with
  | |- context [match ?p with (_, _) => _ end] => destruct p as [over100 scale]
  end.
  destruct a3 as [s|l|f|r]; try done.
  by rewrite (Hbad f eq_refl).
Qed.

(** X5: the scale divides the reading: a reading [x] with scale [s] shows
    the glyph that the reading [x / s] shows without a scale. *)
Theorem Symbol_scale_divides (config : Config.t) (v1 v2 : string) (x y : Q)
  (a1 : value) (O : list string) (scale : Q) :
  ParseFloat (number_text (VString v1)) = Some x →
  ParseFloat (number_text (VString v2)) = Some y →
  Float.gt scale 0 = true →
  (y == x / scale)%Q →
  Symbol config [VString v1; a1; VStrings O; VFloat scale]
  = Symbol config [VString v2; a1; VStrings O].
Proof.
  intros Hx Hy Hscale Hyx. unfold Symbol.
  fold (number_text (VString v1)). fold (number_text (VString v2)).
  rewrite Hx, Hy. cbv zeta.
  change ([VString v1; a1; VStrings O; VFloat scale] !! 1%nat) with (Some a1).
  change ([VString v1; a1; VStrings O; VFloat scale] !! 2%nat)
    with (Some (VStrings O)).
  change ([VString v1; a1; VStrings O; VFloat scale] !! 3%nat)
    with (Some (VFloat scale)).
  change ([VString v2; a1; VStrings O] !! 1%nat) with (Some a1).
  change ([VString v2; a1; VStrings O] !! 2%nat) with (Some (VStrings O)).
  change ([VString v2; a1; VStrings O] !! 3%nat) with (@None value).
  assert (Hne : ¬ (scale == 0)%Q).
  { intros E0. apply gt_0_pos in Hscale. rewrite E0 in Hscale.
    by apply Qlt_irrefl in Hscale. }
  assert (E : (x / scale == y / 1)%Q) by (rewrite Hyx; by field).
  cbv beta iota.
  set (over := if (0 <? length O)%nat then O else defaultOver100Symbols).
  assert (Hpair : (if (0 <? length O)%nat then (O, 1%Q)
                   else (defaultOver100Symbols, 1%Q)) = (over, 1%Q)).
  { subst over. by destruct (0 <? length O)%nat. }
  rewrite Hpair. cbv beta iota. rewrite Hscale.
  rewrite (le_comp _ _ 100 E).
  destruct (Float.le (y / 1) 100).
  - f_equal. apply to_int_comp. by rewrite E.
  - f_equal. apply to_int_comp, Min_comp. by rewrite E.
Qed.

(** X6: a second argument that names no configured list, names a list
    without symbols, is an empty list or is not a list at all leaves the
    built-in ramp in place. *)
Theorem Symbol_falls_back_to_default (config : Config.t) (a0 a1 : value) :
  (∀ L, denotes config a1 L → L = []) →
  Symbol config [a0; a1] = Symbol config [a0].
Proof.
  intros Hnone. unfold Symbol.
  destruct (ParseFloat _) as [number|]; [|done]. cbv zeta.
  change ([a0; a1] !! 1%nat) with (Some a1).
  change ([a0; a1] !! 2%nat) with (@None value).
  change ([a0; a1] !! 3%nat) with (@None value).
  change ([a0] !! 1%nat) with (@None value).
  change ([a0] !! 2%nat) with (@None value).
  change ([a0] !! 3%nat) with (@None value).
  cbv beta iota.
  destruct a1 as [name|l|f|r]; try done.
  - destruct (findSymbolList config name) as [l|] eqn:Hfind; [|done].
    rewrite (Hnone l) by (right; by exists name). done.
  - rewrite (Hnone l) by (by left). done.
Qed.

End SymbolMore.

(** ** Lookups by name *)

(** X8: [findBlockByName] returns the first block with exactly the given
    name: a later block with the same name is never returned, and no block
    is returned only when none has the name. *)
Theorem findBlockByName_first_match (config : Config.t) (name : string) :
  (∀ block,
     findBlockByName config name = Some block
     ↔ ∃ pre post,
         Config.Blocks config = pre ++ block :: post
         ∧ Block.Name block = name
         ∧ Forall (λ b, Block.Name b ≠ name) pre)
  ∧ (findBlockByName config name = None
     ↔ Forall (λ b, Block.Name b ≠ name) (Config.Blocks config)).
Proof.
  unfold findBlockByName. generalize (Config.Blocks config). intros blocks.
  split.
  - intros block. split.
    + revert block. induction blocks as [|b rest IH]; intros block; simpl; [done|].
      destruct (decide (Block.Name b = name)) as [E|Hne].
      * intros [= <-]. exists [], rest. by split_and!.
      * intros Hrest. destruct (IH block Hrest) as (pre & post & -> & Hname & Hpre).
        exists (b :: pre), post. split_and!; [done | done |].
        by constructor.
    + intros (pre & post & -> & Hname & Hpre).
      induction Hpre as [|b pre Hb _ IH]; simpl.
      * by destruct (decide (Block.Name block = name)).
      * by destruct (decide (Block.Name b = name)).
  - split.
    + induction blocks as [|b rest IH]; simpl; [by constructor|].
      destruct (decide (Block.Name b = name)) as [E|Hne]; [done|].
      intros Hrest. constructor; [done | by apply IH].
    + intros Hall. induction Hall as [|b rest Hb _ IH]; simpl; [done|].
      by destruct (decide (Block.Name b = name)).
Qed.

(** X9: [findSymbolList] returns the symbols of the first list with the
    given name, also when that list has none and a later list of the same
    name has some. *)
Theorem findSymbolList_first_match (config : Config.t) (name : string)
  (pre post : list SymbolList.t) (list : SymbolList.t) :
  Config.SymbolLists config = pre ++ list :: post →
  SymbolList.Name list = name →
  Forall (λ l, SymbolList.Name l ≠ name) pre →
  findSymbolList config name = SymbolList.Symbols list.
Proof.
  unfold findSymbolList. intros -> Hname Hpre.
  induction Hpre as [|l pre Hl _ IH]; simpl.
  - by destruct (decide (SymbolList.Name list = name)).
  - by destruct (decide (SymbolList.Name l = name)).
Qed.

Section BlockMore.
Context `{Runtime}.


(** X11: a block with a command never uses its interpreter or its script:
    two blocks that differ in those two fields only behave alike. *)
Theorem executeBlock_command_first (config : Config.t) (st : Proc)
  (name command i1 s1 i2 s2 : string) (interval : Z) (output : Output.t)
  (events : gmap string MouseEvent.t) :
  command ≠ "" →
  executeBlock (Block.mk name interval i1 s1 command output events) config st
  = executeBlock (Block.mk name interval i2 s2 command output events) config st.
Proof.
  intros Hcmd. unfold executeBlock. simpl.
  by destruct (decide (command ≠ "")).
Qed.




(** X13: a block whose configured output sets the name never yields an
    item; the check comes after the command, so the command is run all the
    same and, when it succeeds, the error is the one about the name. *)
Theorem executeBlock_preset_name (block : Block.t) (config : Config.t)
  (st : Proc) :
  Output.Name (Block.Output block) ≠ "" →
  ∃ err,
    (executeBlock block config st).1 = Err err
    ∧ (err = NameFieldSpecified →
       ∃ argv, started (executeBlock block config st).2
               = started st ++ [(argv, environ st)]).
Proof.
  intros Hname. unfold executeBlock.
  assert (Hfail : ∀ (e : error) (l : list (list string * gmap string string)),
            e ≠ NameFieldSpecified →
            ∃ err, @Err error Output.t e = Err err
                   ∧ (err = NameFieldSpecified →
                      ∃ argv, l = started st ++ [(argv, environ st)])).
  { intros e l He. exists e. split; [done|]. intros ->. done. }
  destruct (decide (Block.Command block ≠ "")).
  - unfold executeCommand.
    destruct (decide (Block.Command block = "")); [simpl; by apply Hfail|].
    destruct (Strings.Fields _) as [|part0 parts1]; [simpl; by apply Hfail|].
    unfold output_of. simpl.
    destruct (CmdOutput _ _ _) as [[out|msg] w]; simpl; [|simpl; by apply Hfail].
    destruct (decide (Output.Name (Block.Output block) ≠ "")); [|done].
    exists NameFieldSpecified. split; [done|]. intros _.
    by exists (part0 :: parts1).
  - unfold executeScript.
    destruct (decide (Block.Interpreter block = "")); [simpl; by apply Hfail|].
    destruct (Strings.Fields _) as [|part0 parts1]; [simpl; by apply Hfail|].
    simpl.
    destruct (LookPath _ _ _) as [path|msg]; [|simpl; by apply Hfail].
    destruct (decide (path = "")); [simpl; by apply Hfail|].
    unfold output_of. simpl.
    destruct (CmdOutput _ _ _) as [[out|msg] w]; simpl; [|simpl; by apply Hfail].
    destruct (decide (Output.Name (Block.Output block) ≠ "")); [|done].
    exists NameFieldSpecified. split; [done|]. intros _.
    by exists (part0 :: parts1 ++ [Block.Script block]).
Qed.

End BlockMore.

(** ** More on the scheduler *)

Section SchedulerMore.
Context `{Runtime}.

Lemma output_of_started argv st :
  started (output_of argv st).2 = started st ++ [(argv, environ st)].
Proof. unfold output_of. by destruct (CmdOutput _ _ _) as [[out|msg] w]. Qed.

(** A command or a script starts no process or one, in the environment of
    the caller. *)
Lemma executeCommand_started command st :
  started (executeCommand command st).2 = started st
  ∨ ∃ argv, started (executeCommand command st).2
            = started st ++ [(argv, environ st)].
Proof.
  unfold executeCommand. repeat case_match; try (by left).
  right. eexists. apply output_of_started.
Qed.

Lemma executeScript_started interpreter script st :
  started (executeScript interpreter script st).2 = started st
  ∨ ∃ argv, started (executeScript interpreter script st).2
            = started st ++ [(argv, environ st)].
Proof.
  unfold executeScript. repeat case_match; try (by left).
  right. eexists. apply output_of_started.
Qed.

Lemma executeBlock_started block config st :
  environ (executeBlock block config st).2 = environ st
  ∧ (started (executeBlock block config st).2 = started st
     ∨ ∃ argv, started (executeBlock block config st).2
               = started st ++ [(argv, environ st)]).
Proof.
  unfold executeBlock.
  set (st0 := log (LogExecutingBlock (Block.Name block)) st).
  assert (Hstage : ∃ r st1,
    (if decide (Block.Command block ≠ "")
     then executeCommand (Block.Command block) st0
     else executeScript (Block.Interpreter block) (Block.Script block) st0)
    = (r, st1)
    ∧ environ st1 = environ st
    ∧ (started st1 = started st
       ∨ ∃ argv, started st1 = started st ++ [(argv, environ st)])).
  { destruct (decide (Block.Command block ≠ "")).
    - pose proof (executeCommand_started (Block.Command block) st0) as Hst.
      destruct (executeCommand _ st0) as [r st1] eqn:Hrun.
      exists r, st1. split; [done|]. split; [|done].
      by apply executeCommand_streams in Hrun as (_ & _ & ? & _).
    - pose proof (executeScript_started (Block.Interpreter block)
                    (Block.Script block) st0) as Hst.
      destruct (executeScript _ _ st0) as [r st1] eqn:Hrun.
      exists r, st1. split; [done|]. split; [|done].
      by apply executeScript_streams in Hrun as (_ & _ & ? & _). }
  destruct Hstage as (r & st1 & -> & Henv & Hst).
  destruct r as [outputText|err]; [|done].
  by destruct (decide _).
Qed.

Lemma runBlocks_from_started config blocks acc st :
  ∃ new,
    started (runBlocks_from config blocks acc st).2 = started st ++ new
    ∧ (length new ≤ length blocks)%nat
    ∧ Forall (λ p, p.2 = environ st) new
    ∧ environ (runBlocks_from config blocks acc st).2 = environ st.
Proof.
  revert acc st. induction blocks as [|block rest IH]; intros acc st; simpl.
  - exists []. by rewrite app_nil_r.
  - destruct (executeBlock_started block config st) as [Henv Hst].
    destruct (executeBlock block config st) as [[output|err] st1];
      simpl in Henv, Hst.
    + destruct (IH (acc ++ [output]) st1) as (new & Hnew & Hlen & Hall & Henv1).
      rewrite Henv in Hall, Henv1.
      destruct Hst as [Hst | [argv Hst]]; rewrite Hst in Hnew.
      * exists new. split_and!; [done | lia | done | done].
      * exists ((argv, environ st) :: new). rewrite <- app_assoc in Hnew.
        split_and!; [done | simpl; lia | by constructor | done].
    + simpl. destruct Hst as [Hst | [argv Hst]].
      * exists []. rewrite app_nil_r. split_and!; [done | simpl; lia | done | done].
      * exists [(argv, environ st)].
        split_and!; [done | simpl; lia | by repeat constructor | done].
Qed.



(** X17: the blocks declared after a failing block are not run in that
    tick: the tick ends in the state the failing block left. *)
Theorem runBlocks_stops_at_failure (config : Config.t) (st : Proc)
  (pre post : list Block.t) (block : Block.t) (outputs : list Output.t)
  (st1 st2 : Proc) (err : error) :
  Config.Blocks config = pre ++ block :: post →
  runBlocks_from config pre [] st = (Ok outputs, st1) →
  executeBlock block config st1 = (Err err, st2) →
  runBlocks config st = (Err err, st2)
  ∧ ∃ new, started st2 = started st ++ new
           ∧ (length new ≤ length pre + 1)%nat.
Proof.
  intros Hblocks Hpre Hfail. split.
  - unfold runBlocks. rewrite Hblocks.
    by apply (runBlocks_from_failure config pre block post outputs st st1).
  - destruct (runBlocks_from_started config pre [] st) as (new1 & Hnew1 & Hlen1 & _ & _).
    rewrite Hpre in Hnew1. simpl in Hnew1.
    destruct (executeBlock_started block config st1) as [_ Hst].
    rewrite Hfail in Hst. simpl in Hst.
    destruct Hst as [Hst | [argv Hst]]; rewrite Hst, Hnew1.
    + exists new1. split; [done | lia].
    + exists (new1 ++ [(argv, environ st1)]).
      rewrite <- app_assoc, length_app. split; [done | simpl; lia].
Qed.


End SchedulerMore.

(** ** More on the protocol writer *)

Section ProtocolMore.
Context `{Runtime}.

Lemma executeBlock_quiet block config st :
  stderr (executeBlock block config st).2 = stderr st
  ∧ environ (executeBlock block config st).2 = environ st.
Proof.
  unfold executeBlock.
  set (st0 := log (LogExecutingBlock (Block.Name block)) st).
  assert (Hstage : ∃ r st1,
    (if decide (Block.Command block ≠ "")
     then executeCommand (Block.Command block) st0
     else executeScript (Block.Interpreter block) (Block.Script block) st0)
    = (r, st1)
    ∧ same_streams st0 st1).
  { destruct (decide (Block.Command block ≠ "")).
    - destruct (executeCommand _ st0) as [r st1] eqn:Hrun.
      exists r, st1. split; [done|]. by eapply executeCommand_streams.
    - destruct (executeScript _ _ st0) as [r st1] eqn:Hrun.
      exists r, st1. split; [done|]. by eapply executeScript_streams. }
  destruct Hstage as (r & st1 & -> & _ & Herr & Henv & _).
  destruct r as [outputText|err]; [|done].
  by destruct (decide _).
Qed.

Lemma runBlocks_from_quiet config blocks acc st :
  stderr (runBlocks_from config blocks acc st).2 = stderr st
  ∧ environ (runBlocks_from config blocks acc st).2 = environ st.
Proof.
  revert acc st. induction blocks as [|block rest IH]; intros acc st; simpl;
    [done|].
  destruct (executeBlock_quiet block config st) as [Herr Henv].
  destruct (executeBlock block config st) as [[output|err] st1];
    simpl in Herr, Henv; [|done].
  destruct (IH (acc ++ [output]) st1) as [-> ->]. done.
Qed.

Lemma runBlocks_from_length config blocks acc st outputs st' :
  runBlocks_from config blocks acc st = (Ok outputs, st') →
  length outputs = (length acc + length blocks)%nat.
Proof.
  revert acc st. induction blocks as [|block rest IH]; intros acc st; simpl.
  - intros [= <- <-]. lia.
  - destruct (executeBlock block config st) as [[output|err] st1]; [|done].
    intros Hrest. apply IH in Hrest. rewrite length_app in Hrest.
    simpl in Hrest. lia.
Qed.

(** The stream of snapshots, tick by tick: what is printed are arrays of
    one item for each block, at most one array for each tick; nothing goes
    to standard error and the environment stays as it is. *)
Lemma tickLoop_snapshots config ticks first st base
  (arrays : list (list Output.t)) (n : nat) :
  stdout st = base ++ frame (JsonMarshal <$> arrays) →
  first = bool_decide (arrays = []) →
  (length arrays ≤ n)%nat →
  Forall (λ items, length items = length (Config.Blocks config)) arrays →
  ∃ arrays',
    stdout (tickLoop config ticks first st).2
    = base ++ frame (JsonMarshal <$> arrays')
    ∧ (length arrays' ≤ n + ticks)%nat
    ∧ Forall (λ items, length items = length (Config.Blocks config)) arrays'
    ∧ stderr (tickLoop config ticks first st).2 = stderr st
    ∧ environ (tickLoop config ticks first st).2 = environ st.
Proof.
  revert first st arrays n.
  induction ticks as [|ticks IH];
    intros first st arrays n Hout Hfirst Hlen Hall; simpl.
  - exists arrays. split_and!; [done | lia | done | done | done].
  - unfold tick.
    destruct (runBlocks_from_quiet config (Config.Blocks config) [] st)
      as [Herr Henv].
    fold (runBlocks config st) in Herr, Henv.
    destruct (runBlocks config st) as [[outputs|err] st1] eqn:Hrun;
      simpl in Herr, Henv.
    + pose proof (runBlocks_from_length _ _ _ _ _ _ Hrun) as Hitems.
      apply runBlocks_from_streams in Hrun.
      destruct (IH false
                  (print (WSnapshot (JsonMarshal outputs))
                     (if negb first then print WComma st1 else st1))
                  (arrays ++ [outputs]) (S n))
        as (arrays' & Hout' & Hlen' & Hall' & Herr' & Henv').
      * rewrite fmap_app. simpl. rewrite frame_snoc, Hfirst.
        destruct arrays; simpl; rewrite Hrun, Hout, <- !app_assoc; done.
      * symmetry. apply bool_decide_eq_false. by destruct arrays.
      * rewrite length_app. simpl. lia.
      * apply Forall_app. split; [done|]. by repeat constructor.
      * exists arrays'. split_and!; [done | lia | done | |].
        -- rewrite Herr'. by destruct first.
        -- rewrite Henv'. by destruct first.
    + apply runBlocks_from_streams in Hrun.
      destruct (IH first (log (LogTickError err) st1) arrays n)
        as (arrays' & Hout' & Hlen' & Hall' & Herr' & Henv');
        [simpl; congruence | done | done | done |].
      exists arrays'. split_and!; [done | lia | done | |].
      * by rewrite Herr'.
      * by rewrite Henv'.
Qed.


(** X20: the main goroutine writes nothing to standard error and leaves
    the environment as it found it, however many blocks fail: a failure is
    only logged. *)
Theorem main_reports_only_to_log (config : Config.t) (ticks : nat)
  (closed : bool) (st : Proc) :
  stderr (main config ticks closed st) = stderr st
  ∧ environ (main config ticks closed st) = environ st.
Proof.
  unfold main.
  destruct (tickLoop_snapshots (configure config) ticks true
              (print WOpen (print (WHeader (headerJSON (configure config))) st))
              (stdout st ++ [WHeader (headerJSON (configure config)); WOpen])
              [] 0%nat)
    as (arrays & _ & _ & _ & Herr & Henv).
  { simpl. by rewrite <- !app_assoc, app_nil_r. }
  { done. }
  { done. }
  { done. }
  cbv zeta.
  destruct (tickLoop _ _ _ _) as [first st'] eqn:Hloop.
  simpl in Herr, Henv. by destruct closed.
Qed.

Lemma handleRecord_stdout config raw defers st :
  stdout (handleRecord config raw defers st).2 = stdout st
  ∧ ∃ errs, stderr (handleRecord config raw defers st).2 = stderr st ++ errs
            ∧ (length errs ≤ 1)%nat.
Proof.
  assert (Hnil : ∀ l : list error, ∃ errs, l = l ++ errs ∧ (length errs ≤ 1)%nat).
  { intros l. exists []. rewrite app_nil_r. split; [done | simpl; lia]. }
  unfold handleRecord.
  destruct (decide _); [done|].
  destruct (decide _); [done|].
  pose proof (NewEventFromRaw_clear_log raw (log (LogRawInputLine raw) st))
    as Hclear.
  destruct (NewEventFromRaw raw _) as [[ev|err] st1]; simpl in Hclear;
    injection Hclear as _ _ Hout Herr _; [|simpl; by rewrite Hout, Herr].
  destruct (findBlockByName _ _) as [block|]; [|simpl; by rewrite Hout, Herr].
  destruct (Block.MouseEvents block !! _) as [mouseEvent|];
    [|simpl; by rewrite Hout, Herr].
  destruct (decide _); [simpl; by rewrite Hout, Herr|].
  match goal with
  | |- context [if decide (MouseEvent.Command mouseEvent ≠ "")
                then executeCommand ?c ?s else executeScript ?i ?sc ?s] =>
      assert (Hrun : ∃ r st2,
                (if decide (MouseEvent.Command mouseEvent ≠ "")
                 then executeCommand c s else executeScript i sc s) = (r, st2)
                ∧ same_streams s st2)
  end.
  { destruct (decide (MouseEvent.Command mouseEvent ≠ "")).
    - destruct (executeCommand _ _) as [r st2] eqn:Hrun.
      exists r, st2. split; [done|]. by eapply executeCommand_streams.
    - destruct (executeScript _ _ _) as [r st2] eqn:Hrun.
      exists r, st2. split; [done|]. by eapply executeScript_streams. }
  destruct Hrun as (r & st2 & -> & Hout2 & Herr2 & _).
  simpl in Hout2, Herr2.
  destruct r as [output|err]; simpl; rewrite Hout2, Herr2, Hout, Herr.
  - done.
  - split; [done|]. exists [err]. split; [done | simpl; lia].
Qed.

Lemma eventLoop_stdout config lines defers st :
  stdout (eventLoop config lines defers st).2 = stdout st
  ∧ ∃ errs, stderr (eventLoop config lines defers st).2 = stderr st ++ errs
            ∧ (length errs ≤ length lines)%nat.
Proof.
  revert defers st. induction lines as [|raw rest IH]; intros defers st; simpl.
  - split; [done|]. exists []. by rewrite app_nil_r.
  - destruct (handleRecord_stdout config raw defers st)
      as (Hout & errs & Herr & Hlen).
    destruct (handleRecord config raw defers st) as [defers1 st1].
    simpl in Hout, Herr.
    destruct (IH defers1 st1) as (Hout1 & errs1 & Herr1 & Hlen1).
    split; [congruence|]. exists (errs ++ errs1).
    rewrite Herr1, Herr, <- app_assoc, length_app. split; [done | lia].
Qed.

Lemma run_deferred_stdout (defers : list deferred) (st : Proc) :
  stdout (foldl (λ st d, run_deferred d st) st defers) = stdout st
  ∧ stderr (foldl (λ st d, run_deferred d st) st defers) = stderr st.
Proof.
  revert st. induction defers as [|d rest IH]; intros st; simpl; [done|].
  destruct (IH (run_deferred d st)) as [-> ->]. by destruct d.
Qed.

(** X28: the click goroutine prints one thing, [Triggered], and only when
    standard input has ended; its handlers' outputs are never printed.  On
    standard error it writes at most one report for each input line after
    the first. *)
Theorem clickGoroutine_output (config : Config.t) (lines : list string)
  (scanErr : option string) (st : Proc) :
  stdout (clickGoroutine config lines scanErr st) = stdout st ++ [WTriggered]
  ∧ ∃ errs,
      stderr (clickGoroutine config lines scanErr st) = stderr st ++ errs
      ∧ (length errs ≤ length lines - 1)%nat.
Proof.
  unfold clickGoroutine, handleClickEvents. simpl.
  destruct lines as [|initial rest].
  - simpl.
    split; [by destruct scanErr|]. exists []. rewrite app_nil_r.
    split; [by destruct scanErr | done].
  - destruct (eventLoop_stdout config rest [DeferLogFinished]
                (log (LogInitialLine initial) (log LogStarting st)))
      as (Hout & errs & Herr & Hlen).
    destruct (eventLoop config rest _ _) as [defers st1].
    simpl in Hout, Herr.
    destruct (run_deferred_stdout defers
                (match scanErr with
                 | Some msg => log (LogStdinError msg) st1
                 | None => st1
                 end)) as [-> ->].
    split; [by destruct scanErr; simpl; rewrite Hout|].
    exists errs. split; [by destruct scanErr; simpl; rewrite Herr|].
    simpl. lia.
Qed.

End ProtocolMore.

(** ** More on strings *)

Lemma append_assoc (a b c : string) : (a +:+ b) +:+ c = a +:+ b +:+ c.
Proof.
  induction a as [|x a IH]; [done|].
  change ((String x a +:+ b) +:+ c) with (String x ((a +:+ b) +:+ c)).
  by rewrite IH.
Qed.

Lemma append_empty_r (a : string) : a +:+ "" = a.
Proof.
  induction a as [|x a IH]; [done|].
  change (String x a +:+ "") with (String x (a +:+ "")). by rewrite IH.
Qed.

Lemma rev_app_acc (s acc : string) :
  String.rev_app s acc = String.rev s +:+ acc.
Proof.
  revert acc. induction s as [|c s IH]; intros acc; [done|].
  unfold String.rev. simpl. rewrite (IH (String c acc)), (IH (String c "")).
  by rewrite append_assoc.
Qed.

Lemma rev_append (a b : string) :
  String.rev (a +:+ b) = String.rev b +:+ String.rev a.
Proof.
  unfold String.rev at 1. rewrite rev_app_append.
  fold (String.rev a). apply rev_app_acc.
Qed.

Lemma contains_rev (c : ascii) (s : string) :
  Strings.contains c (String.rev s) = Strings.contains c s.
Proof.
  induction s as [|d s IH]; [done|].
  change (String d s) with (String d "" +:+ s) at 1.
  rewrite rev_append, contains_app, IH. simpl.
  destruct (decide (c = d)); [by rewrite orb_true_r | by rewrite orb_false_r].
Qed.

(** Trimming on the left stops at the first byte that is to stay. *)
Lemma TrimLeftFunc_stops (f : ascii → bool) (pre : string) (c : ascii)
  (rest : string) :
  f c = false →
  ∃ pre', Strings.TrimLeftFunc (pre +:+ String c rest) f = pre' +:+ String c rest
          ∧ ∀ d, Strings.contains d pre = false → Strings.contains d pre' = false.
Proof.
  intros Hc. induction pre as [|x pre IH].
  - exists "". simpl. by rewrite Hc.
  - change (String x pre +:+ String c rest)
      with (String x (pre +:+ String c rest)).
    simpl. destruct (f x).
    + destruct IH as (pre' & Heq & Hsub). exists pre'. split; [done|].
      intros d Hd. apply Hsub. by destruct (decide (d = x)).
    + by exists (String x pre).
Qed.

Lemma TrimLeftFunc_until (c : ascii) (pre rest : string) :
  Strings.contains c pre = false →
  Strings.TrimLeftFunc (pre +:+ String c rest)
    (λ r, negb (bool_decide (r = c)))
  = String c rest.
Proof.
  induction pre as [|x pre IH]; simpl.
  - intros _. by rewrite bool_decide_eq_true_2.
  - change (String x pre +:+ String c rest)
      with (String x (pre +:+ String c rest)).
    destruct (decide (c = x)) as [E|Hne]; [done|]. intros Hpre. simpl.
    rewrite bool_decide_eq_false_2 by congruence. simpl. by apply IH.
Qed.

Lemma TrimRightFunc_until (c : ascii) (body post : string) :
  Strings.contains c post = false →
  Strings.TrimRightFunc ((body +:+ String c "") +:+ post)
    (λ r, negb (bool_decide (r = c)))
  = body +:+ String c "".
Proof.
  intros Hpost. unfold Strings.TrimRightFunc.
  rewrite rev_append.
  assert (E : String.rev (body +:+ String c "") = String c (String.rev body))
    by (by rewrite rev_append).
  rewrite E, TrimLeftFunc_until by (by rewrite contains_rev).
  rewrite <- E. apply rev_involutive.
Qed.

Section DispatcherMore.
Context `{Runtime}.

(** X21: only the part of a line from its first [{] to its last [}] is
    parsed: whatever comes before (the comma the bar sends, white space,
    anything without a brace) and whatever comes after is dropped. *)
Theorem NewEventFromRaw_span (pre body post : string) (st : Proc) :
  Strings.contains "{" pre = false →
  Strings.contains "}" post = false →
  NewEventFromRaw (pre +:+ (String "{" body +:+ "}") +:+ post) st
  = NewEventFromRaw (String "{" body +:+ "}") st.
Proof.
  intros Hpre Hpost.
  assert (Hclean : ∀ a b,
    Strings.contains "{" a = false → Strings.contains "}" b = false →
    Strings.TrimRightFunc
      (Strings.TrimLeftFunc
         (Strings.TrimLeftFunc (a +:+ (String "{" body +:+ "}") +:+ b)
            (λ r, bool_decide (r = ","%char) || Ascii.is_space r))
         (λ r, negb (bool_decide (r = "{"%char))))
      (λ r, negb (bool_decide (r = "}"%char)))
    = String "{" body +:+ "}").
  { intros a b Ha Hb.
    change ((String "{" body +:+ "}") +:+ b)
      with (String "{" ((body +:+ "}") +:+ b)).
    destruct (TrimLeftFunc_stops
                (λ r, bool_decide (r = ","%char) || Ascii.is_space r)
                a "{" ((body +:+ "}") +:+ b)) as (a' & -> & Ha'); [done|].
    rewrite TrimLeftFunc_until by (by apply Ha').
    change (String "{" ((body +:+ "}") +:+ b))
      with ((String "{" body +:+ String "}" "") +:+ b).
    by apply TrimRightFunc_until. }
  unfold NewEventFromRaw. rewrite (Hclean pre post Hpre Hpost).
  pose proof (Hclean "" "" eq_refl eq_refl) as Hbody.
  change ("" +:+ (String "{" body +:+ "}") +:+ "")
    with ((String "{" body +:+ "}") +:+ "") in Hbody.
  rewrite append_empty_r in Hbody. by rewrite Hbody.
Qed.

End DispatcherMore.

Lemma digit_not_NUL (n : N) :
  Strconv.digit (N.to_nat (n mod 10)) ≠ "000"%char.
Proof.
  assert (Hlt : (N.to_nat (n mod 10) < 10)%nat).
  { pose proof (N.mod_upper_bound n 10). lia. }
  revert Hlt. generalize (N.to_nat (n mod 10)). intros k Hk.
  do 10 (destruct k as [|k]; [by vm_compute|]). lia.
Qed.

Lemma digits_no_NUL (fuel : nat) (n : N) (acc : string) :
  Strings.contains "000" acc = false →
  Strings.contains "000" (Strconv.digits fuel n acc) = false.
Proof.
  revert n acc. induction fuel as [|fuel IH]; intros n acc Hacc;
    cbn [Strconv.digits]; [done|].
  assert (Hacc' : Strings.contains "000"
                    (String (Strconv.digit (N.to_nat (n mod 10))) acc) = false).
  { cbn [Strings.contains]. destruct (decide _) as [E|_]; [|exact Hacc].
    symmetry in E. by destruct (digit_not_NUL n). }
  destruct (n <? 10)%N; [exact Hacc' | by apply IH].
Qed.

Lemma Itoa_no_NUL (z : Z) : Strings.contains "000" (Strconv.Itoa z) = false.
Proof.
  unfold Strconv.Itoa. destruct (z <? 0).
  - cbn [Strings.contains]. destruct (decide _) as [E|_]; [done|].
    by apply digits_no_NUL.
  - by apply digits_no_NUL.
Qed.

Lemma eventButton_String_no_NUL (b : eventButton) :
  Strings.contains "000" (eventButton_String b) = false.
Proof. unfold eventButton_String. by repeat case_match. Qed.

Lemma Setenv_valid (key value : string) (env : gmap string string) :
  Os.valid key value = true → Os.Setenv key value env = <[key := value]> env.
Proof. unfold Os.Setenv. by intros ->. Qed.

(** The environment a click handler runs in. *)
Lemma click_environment (ev : I3barClickEvent.t) (env : gmap string string) :
  Os.Setenv "Y" (Strconv.Itoa (I3barClickEvent.Y ev))
    (Os.Setenv "X" (Strconv.Itoa (I3barClickEvent.X ev))
       (Os.Setenv "BUTTON" (eventButton_String (I3barClickEvent.Button ev)) env))
  = <["Y" := Strconv.Itoa (I3barClickEvent.Y ev)]>
      (<["X" := Strconv.Itoa (I3barClickEvent.X ev)]>
         (<["BUTTON" := eventButton_String (I3barClickEvent.Button ev)]> env)).
Proof.
  rewrite !Setenv_valid; [done | | |]; unfold Os.valid;
    rewrite ?Itoa_no_NUL, ?eventButton_String_no_NUL; done.
Qed.

Section DispatcherCases.
Context `{Runtime}.

Lemma NewEventFromRaw_fst raw (s1 s2 : Proc) :
  (NewEventFromRaw raw s1).1 = (NewEventFromRaw raw s2).1.
Proof. unfold NewEventFromRaw. by destruct (JsonUnmarshal _). Qed.

(** What one input line does: nothing but logging, or one run of the
    handler that the first block of the event's name has for the event's
    button. *)
Lemma handleRecord_cases config raw defers st :
  (∃ st', handleRecord config raw defers st = (defers, st')
          ∧ clear_log st' = clear_log st)
  ∨ ∃ ev block mouseEvent,
      (∀ s, (NewEventFromRaw raw s).1 = Ok ev)
      ∧ findBlockByName config (I3barClickEvent.Name ev) = Some block
      ∧ Block.MouseEvents block
          !! eventButton_String (I3barClickEvent.Button ev) = Some mouseEvent
      ∧ ¬ (MouseEvent.Script mouseEvent = ""
           ∧ MouseEvent.Command mouseEvent = "")
      ∧ (started (handleRecord config raw defers st).2 = started st
         ∨ started (handleRecord config raw defers st).2
           = started st
             ++ [(handler_argv block mouseEvent,
                  Os.Setenv "Y" (Strconv.Itoa (I3barClickEvent.Y ev))
                    (Os.Setenv "X" (Strconv.Itoa (I3barClickEvent.X ev))
                       (Os.Setenv "BUTTON"
                          (eventButton_String (I3barClickEvent.Button ev))
                          (environ st))))]).
Proof.
  unfold handleRecord.
  destruct (decide _); [left; by eexists|].
  destruct (decide _); [left; by eexists|].
  pose proof (NewEventFromRaw_clear_log raw (log (LogRawInputLine raw) st))
    as Hclear.
  pose proof (λ s, NewEventFromRaw_fst raw s (log (LogRawInputLine raw) st))
    as Hfst.
  destruct (NewEventFromRaw raw _) as [[ev|err] st1]; simpl in Hclear, Hfst;
    [|left; by eexists].
  destruct (findBlockByName _ _) as [block|] eqn:Hfind; [|left; by eexists].
  destruct (Block.MouseEvents block !! _) as [mouseEvent|] eqn:Hhandler;
    [|left; by eexists].
  destruct (decide _) as [|Hsome]; [left; by eexists|].
  right. exists ev, block, mouseEvent. split_and!; try done.
  injection Hclear as _ Henv _ _ Hstarted.
  unfold handler_argv.
  destruct (decide (MouseEvent.Command mouseEvent ≠ "")).
  - unfold executeCommand.
    destruct (decide (MouseEvent.Command mouseEvent = "")); [done|].
    destruct (Strings.Fields (MouseEvent.Command mouseEvent))
      as [|part0 parts1]; simpl; [by left|].
    right. unfold output_of. simpl.
    destruct (CmdOutput _ _ _) as [[out|msg] w]; simpl;
      by rewrite Hstarted, Henv.
  - unfold executeScript.
    destruct (decide _); simpl; [by left|].
    destruct (Strings.Fields _) as [|part0 parts1]; simpl; [by left|].
    destruct (LookPath _ _ _) as [path|msg]; simpl; [|by left].
    destruct (decide (path = "")); simpl; [by left|].
    right. unfold output_of. simpl.
    destruct (CmdOutput _ _ _) as [[out|msg] w]; simpl;
      by rewrite Hstarted, Henv.
Qed.

End DispatcherCases.

Section DispatcherExtras.
Context `{Runtime}.

(** X22: a line that is blank, is a lone comma, does not parse as a click
    event, or is a click on a handler with neither script nor command
    changes nothing but the log: no process, no change of the environment,
    nothing deferred. *)
Theorem unusable_line_is_skipped (config : Config.t) (raw : string)
  (defers : list deferred) (st : Proc) :
  String.length (Strings.TrimSpace raw) = 0%nat
  ∨ raw = ","
  ∨ (∃ err, (NewEventFromRaw raw st).1 = Err err)
  ∨ (∃ ev block mouseEvent,
       (NewEventFromRaw raw st).1 = Ok ev
       ∧ findBlockByName config (I3barClickEvent.Name ev) = Some block
       ∧ Block.MouseEvents block
           !! eventButton_String (I3barClickEvent.Button ev) = Some mouseEvent
       ∧ MouseEvent.Script mouseEvent = ""
       ∧ MouseEvent.Command mouseEvent = "") →
  ∃ st', handleRecord config raw defers st = (defers, st')
         ∧ clear_log st' = clear_log st.
Proof.
  intros Hcase. unfold handleRecord.
  destruct (decide _); [by eexists|].
  destruct (decide _); [by eexists|].
  destruct Hcase as [? | [? | Hcase]]; [done | done |].
  pose proof (NewEventFromRaw_clear_log raw (log (LogRawInputLine raw) st))
    as Hclear.
  pose proof (NewEventFromRaw_fst raw st (log (LogRawInputLine raw) st))
    as Hfst.
  destruct (NewEventFromRaw raw (log _ st)) as [[ev|err] st1];
    simpl in Hclear, Hfst; [|by eexists].
  destruct Hcase as [[err Herr] | (ev' & block & mouseEvent & Hev & Hfind & Hhandler & Hs & Hc)];
    [congruence|].
  assert (ev' = ev) as -> by congruence.
  rewrite Hfind, Hhandler.
  destruct (decide _) as [_|Hne]; [by eexists|].
  by destruct Hne.
Qed.

(** X23: a process started for a line is started for a click that parsed:
    it sees [BUTTON], [X] and [Y] set to the button name and the position
    of that click, and every other variable as the dispatcher had it. *)
Theorem handler_environment (config : Config.t) (raw : string)
  (defers : list deferred) (st : Proc) (argv : list string)
  (env : gmap string string) :
  started (handleRecord config raw defers st).2 = started st ++ [(argv, env)] →
  ∃ ev,
    (∀ s, (NewEventFromRaw raw s).1 = Ok ev)
    ∧ env !! "BUTTON" = Some (eventButton_String (I3barClickEvent.Button ev))
    ∧ env !! "X" = Some (Strconv.Itoa (I3barClickEvent.X ev))
    ∧ env !! "Y" = Some (Strconv.Itoa (I3barClickEvent.Y ev))
    ∧ ∀ key, key ≠ "BUTTON" → key ≠ "X" → key ≠ "Y" →
             env !! key = environ st !! key.
Proof.
  intros Hstarted.
  destruct (handleRecord_cases config raw defers st)
    as [(st' & Hstep & Hclear) | (ev & block & mouseEvent & Hev & _ & _ & _ & Hrun)].
  - rewrite Hstep in Hstarted. simpl in Hstarted.
    injection Hclear as _ _ _ _ Hsame. rewrite Hsame in Hstarted.
    apply (f_equal length) in Hstarted. rewrite length_app in Hstarted.
    simpl in Hstarted. lia.
  - destruct Hrun as [Hrun | Hrun]; rewrite Hrun in Hstarted.
    + apply (f_equal length) in Hstarted. rewrite length_app in Hstarted.
      simpl in Hstarted. lia.
    + apply app_inv_head in Hstarted. injection Hstarted as _ <-.
      exists ev. rewrite click_environment. split; [done|].
      split_and!.
      * rewrite lookup_insert_ne, lookup_insert_ne by done.
        apply lookup_insert_eq.
      * rewrite lookup_insert_ne by done. apply lookup_insert_eq.
      * apply lookup_insert_eq.
      * intros key ? ? ?. by rewrite !lookup_insert_ne.
Qed.


Lemma handleRecord_started_length config raw defers st :
  (length (started (handleRecord config raw defers st).2)
   ≤ S (length (started st)))%nat.
Proof.
  destruct (handleRecord_cases config raw defers st)
    as [(st' & Hstep & Hclear) | (ev & block & mouseEvent & _ & _ & _ & _ & Hrun)].
  - rewrite Hstep. simpl. injection Hclear as _ _ _ _ ->. lia.
  - destruct Hrun as [-> | ->]; [lia|]. rewrite length_app. simpl. lia.
Qed.

Lemma eventLoop_started_length config lines defers st :
  (length (started (eventLoop config lines defers st).2)
   ≤ length (started st) + length lines)%nat.
Proof.
  revert defers st. induction lines as [|raw rest IH]; intros defers st;
    simpl; [lia|].
  pose proof (handleRecord_started_length config raw defers st) as Hone.
  destruct (handleRecord config raw defers st) as [defers1 st1].
  simpl in Hone. specialize (IH defers1 st1). lia.
Qed.

Lemma run_deferred_started (defers : list deferred) (st : Proc) :
  started (foldl (λ st d, run_deferred d st) st defers) = started st.
Proof.
  revert st. induction defers as [|d rest IH]; intros st; simpl; [done|].
  rewrite IH. by destruct d.
Qed.

(** X26: the dispatcher starts at most one process for each line after the
    first, and none for the first. *)
Theorem handleClickEvents_processes (config : Config.t) (lines : list string)
  (scanErr : option string) (st : Proc) :
  (length (started (handleClickEvents config lines scanErr st))
   ≤ length (started st) + (length lines - 1))%nat.
Proof.
  unfold handleClickEvents.
  destruct lines as [|initial rest].
  - simpl. destruct scanErr; simpl; lia.
  - pose proof (eventLoop_started_length config rest [DeferLogFinished]
                  (log (LogInitialLine initial) (log LogStarting st))) as Hloop.
    destruct (eventLoop config rest _ _) as [defers st1]. simpl in Hloop.
    rewrite run_deferred_started. destruct scanErr; simpl; lia.
Qed.

End DispatcherExtras.

(** X25: a button has a name exactly when it is one of the five known
    buttons, and the five names differ; every other button has the empty
    name, which is then the key its handler is looked up with. *)
Theorem eventButton_String_names (b1 b2 : eventButton) :
  (eventButton_String b1 ≠ "" ↔ 1 ≤ b1 ≤ 5)
  ∧ (eventButton_String b1 = eventButton_String b2 →
     1 ≤ b1 ≤ 5 → b1 = b2).
Proof.
  unfold eventButton_String, ButtonLeft, ButtonMiddle, ButtonRight,
    ButtonScrollUp, ButtonScrollDown.
  split.
  - repeat case_match; split; (done || lia).
  - repeat case_match; intros; (done || lia).
Qed.

(** ** Worked examples on the concrete runtime *)

Import Demo.

(** The tick of the configuration with blocks [A] (prints 42) and [B]
    (exits with status 1). *)
Lemma failing_block_skips_tick_witness :
  ∃ st',
    tick config_AB true (start path_only) = (true, st')
    ∧ stdout st' = stdout (start path_only)
    ∧ logged st'
      = logged (start path_only)
        ++ (LogExecutingBlock ∘ Block.Name <$> [block_A] ++ [block_B])
        ++ [LogTickError (ProcessError "exit status 1")]
    ∧ List.filter is_error_report (logged st')
      = List.filter is_error_report (logged (start path_only))
        ++ [LogTickError (ProcessError "exit status 1")]
    ∧ ∀ ticks, tickLoop config_AB (S ticks) true (start path_only)
               = tickLoop config_AB ticks true st'.
Proof.
  apply (failing_block_skips_tick config_AB true (start path_only)
           [block_A] [] block_B
           [Output.set Output.FName "A"
              (Output.set Output.FFullText "42" Output.zero)]
           (runBlocks_from config_AB [block_A] [] (start path_only)).2
           (executeBlock block_B config_AB
              (runBlocks_from config_AB [block_A] [] (start path_only)).2).2
           (ProcessError "exit status 1")).
  - reflexivity.
  - vm_compute. reflexivity.
  - vm_compute. reflexivity.
Defined.



(** A right click on [vol], which has a handler for the left button
    only. *)
Lemma unrouted_click_is_dropped_witness :
  unrouted config_vol (click "vol" 3 10 20)
  ∧ ∃ st',
      handleRecord config_vol (click "vol" 3 10 20) [DeferLogFinished]
        (start path_only) = ([DeferLogFinished], st')
      ∧ started st' = started (start path_only)
      ∧ environ st' = environ (start path_only)
      ∧ stdout st' = stdout (start path_only)
      ∧ stderr st' = stderr (start path_only)
      ∧ world st' = world (start path_only)
      ∧ ∀ rest, eventLoop config_vol (click "vol" 3 10 20 :: rest)
                  [DeferLogFinished] (start path_only)
                = eventLoop config_vol rest [DeferLogFinished] st'.
Proof.
  assert (Hraw : unrouted config_vol (click "vol" 3 10 20)).
  { split; [vm_compute; discriminate|]. split; [vm_compute; discriminate|].
    exists (I3barClickEvent.mk "vol" "" 10 20 3 0 0 0 0 0 0). split.
    - intros st. vm_compute. reflexivity.
    - right. exists block_vol. split; vm_compute; reflexivity. }
  split; [exact Hraw|].
  apply (unrouted_click_is_dropped config_vol (click "vol" 3 10 20)
           [DeferLogFinished] (start path_only) Hraw).
Defined.


(** C4 (the code departs from this claim): only the branch for readings
    above 100 clamps its index; on the other branch a negative reading
    gives a negative index.  The reading -50 on the default ramp of five
    glyphs is looked up at position -2, outside the ramp: the call panics
    instead of returning a glyph, the template that made the call fails
    and the tick prints no snapshot. *)
Theorem Symbol_negative_reading_out_of_range :
  Symbol config_cold [VString "-50"] = IndexOutOfRange (-2) 5
  ∧ (executeBlock block_cold config_cold (start path_only)).1
    = Err (TemplateExecuteError "FullText"
             "error calling Symbol: runtime error: index out of range")
  ∧ stdout (tick config_cold true (start path_only)).2 = [].
Proof.
  split; [|split]; vm_compute; reflexivity.
Qed.

(** C2 (the code departs from this claim): the name of the block is
    stored in the item before the string fields are rendered, and it is
    rendered with them.  A block named [{{.Text}}] whose command prints
    42 yields an item named 42. *)
Theorem block_name_is_templated :
  Block.Name block_templated = "{{.Text}}"
  ∧ (executeBlock block_templated config_templated (start path_only)).1
    = Ok (Output.set Output.FName "42"
            (Output.set Output.FFullText "42" Output.zero))
  ∧ stdout (main config_templated 1 false (start path_only))
    = [WHeader (headerJSON (configure config_templated)); WOpen;
       WSnapshot ("[{" +:+ quoted "name" +:+ ":" +:+ quoted "42" +:+ ","
                  +:+ quoted "full_text" +:+ ":" +:+ quoted "42" +:+ "}]")].
Proof.
  split; [reflexivity|]. split; vm_compute; reflexivity.
Qed.

(** C3 (the code departs from this claim): the function that puts the
    environment back is deferred inside the loop, so it runs when
    [handleClickEvents] returns, not when the handler does.  After a left
    click on [vol] the variables [BUTTON], [X] and [Y] are still set when
    the next line is processed; the saved environment is on the stack of
    deferred calls and is put back only at the end of the input. *)
Theorem environment_kept_until_return :
  let record := click "vol" 1 10 20 in
  let step :=
    handleRecord config_vol record [DeferLogFinished] (start path_only) in
  step.1 = [DeferRestoreEnv ["PATH=/bin"]; DeferCancel; DeferLogFinished]
  ∧ started step.2 = [(["true"], environ step.2)]
  ∧ environ step.2
    = <["Y" := "20"]> (<["X" := "10"]> (<["BUTTON" := "Left"]> path_only))
  ∧ environ step.2 ≠ environ (start path_only)
  ∧ (∀ rest,
       eventLoop config_vol (record :: rest) [DeferLogFinished]
         (start path_only)
       = eventLoop config_vol rest step.1 step.2)
  ∧ environ (handleClickEvents config_vol ["["; record] None
               (start path_only))
    = environ (start path_only).
Proof.
  intros record step.
  split; [vm_compute; reflexivity|].
  split; [vm_compute; reflexivity|].
  split; [vm_compute; reflexivity|].
  split.
  { intros E. apply (f_equal (λ m : gmap string string, m !! "BUTTON")) in E.
    vm_compute in E. discriminate. }
  split; [|vm_compute; reflexivity].
  intros rest. cbn [eventLoop]. fold step. by destruct step.
Qed.

(** ** Further worked examples *)



(** The reading 99 on a ramp of five glyphs. *)
Lemma Symbol_last_glyph_only_at_100_witness :
  ∃ (i : nat) (g : string),
    (i < length ["a"; "b"; "c"; "d"; "e"] - 1)%nat
    ∧ ["a"; "b"; "c"; "d"; "e"] !! i = Some g
    ∧ Symbol config_vol [VString "99"; VStrings ["a"; "b"; "c"; "d"; "e"]]
      = Glyph g.
Proof.
  apply (Symbol_last_glyph_only_at_100 config_vol (VString "99")
           (VStrings ["a"; "b"; "c"; "d"; "e"]) 99
           ["a"; "b"; "c"; "d"; "e"]).
  - vm_compute. reflexivity.
  - left. reflexivity.
  - simpl. lia.
  - unfold Qle. simpl. lia.
  - unfold Qlt. simpl. lia.
Defined.

(** A negative scale. *)
Lemma Symbol_ignores_bad_scale_witness :
  Symbol config_vol [VString "150"; VStrings ["a"; "b"];
                     VStrings ["x"; "y"]; VFloat (-2)]
  = Symbol config_vol [VString "150"; VStrings ["a"; "b"];
                       VStrings ["x"; "y"]].
Proof.
  apply (Symbol_ignores_bad_scale config_vol (VString "150")
           (VStrings ["a"; "b"]) (VStrings ["x"; "y"]) (VFloat (-2))).
  intros s [= <-]. reflexivity.
Defined.

(** The reading 150 with scale 2 and the reading 75. *)
Lemma Symbol_scale_divides_witness :
  Symbol config_vol [VString "150"; VStrings ["a"; "b"; "c"; "d"; "e"];
                     VStrings ["x"; "y"]; VFloat 2]
  = Symbol config_vol [VString "75"; VStrings ["a"; "b"; "c"; "d"; "e"];
                       VStrings ["x"; "y"]].
Proof.
  apply (Symbol_scale_divides config_vol "150" "75" 150 75
           (VStrings ["a"; "b"; "c"; "d"; "e"]) ["x"; "y"] 2).
  - vm_compute. reflexivity.
  - vm_compute. reflexivity.
  - reflexivity.
  - unfold Qeq. simpl. lia.
Defined.

(** The first list named [battery] has no symbols. *)
Lemma Symbol_falls_back_to_default_witness :
  Symbol config_lists [VString "50"; VString "battery"]
  = Symbol config_lists [VString "50"].
Proof.
  apply (Symbol_falls_back_to_default config_lists (VString "50")
           (VString "battery")).
  intros L [Hlist | (name & Hname & Hfind)]; [discriminate|].
  injection Hname as <-. vm_compute in Hfind. discriminate.
Defined.


(** The first of the two lists named [battery] is the one returned. *)
Lemma findSymbolList_first_match_witness :
  findSymbolList config_lists "battery" = None.
Proof.
  apply (findSymbolList_first_match config_lists "battery"
           [SymbolList.mk "moon" (Some ["n"; "f"])]
           [SymbolList.mk "battery" (Some ["lo"; "hi"])]
           (SymbolList.mk "battery" None)).
  - reflexivity.
  - reflexivity.
  - repeat constructor. discriminate.
Defined.

(** Block [A] with an interpreter and a script besides its command. *)
Lemma executeBlock_command_first_witness :
  executeBlock (Block.mk "A" 1 "sh -c" "exit 1" "echo 42" text_output ∅)
    config_AB (start path_only)
  = executeBlock block_A config_AB (start path_only).
Proof.
  apply (executeBlock_command_first config_AB (start path_only) "A" "echo 42"
           "sh -c" "exit 1" "" "" 1 text_output ∅).
  discriminate.
Defined.


(** Block [A] with a name set in its output: the command runs, the item is
    refused. *)
Lemma executeBlock_preset_name_witness :
  ∃ err,
    (executeBlock block_named config_AB (start path_only)).1 = Err err
    ∧ (err = NameFieldSpecified →
       ∃ argv, started (executeBlock block_named config_AB
                          (start path_only)).2
               = started (start path_only)
                 ++ [(argv, environ (start path_only))]).
Proof.
  apply (executeBlock_preset_name block_named config_AB (start path_only)).
  vm_compute. discriminate.
Defined.



(** Blocks [A] and [B]: the tick ends after [B], with two processes. *)
Lemma runBlocks_stops_at_failure_witness :
  let st1 := (runBlocks_from config_AB [block_A] [] (start path_only)).2 in
  let st2 := (executeBlock block_B config_AB st1).2 in
  runBlocks config_AB (start path_only)
  = (Err (ProcessError "exit status 1"), st2)
  ∧ ∃ new, started st2 = started (start path_only) ++ new
           ∧ (length new ≤ length [block_A] + 1)%nat.
Proof.
  apply (runBlocks_stops_at_failure config_AB (start path_only)
           [block_A] [] block_B
           [Output.set Output.FName "A"
              (Output.set Output.FFullText "42" Output.zero)]
           (runBlocks_from config_AB [block_A] [] (start path_only)).2
           (executeBlock block_B config_AB
              (runBlocks_from config_AB [block_A] [] (start path_only)).2).2
           (ProcessError "exit status 1")).
  - reflexivity.
  - vm_compute. reflexivity.
  - vm_compute. reflexivity.
Defined.

(** A click with the comma the bar sends before it and a blank after
    it. *)
Lemma NewEventFromRaw_span_witness :
  NewEventFromRaw
    ("," +:+ (String "{" (quoted "name" +:+ ":" +:+ quoted "vol") +:+ "}")
         +:+ " ")
    (start path_only)
  = NewEventFromRaw
      (String "{" (quoted "name" +:+ ":" +:+ quoted "vol") +:+ "}")
      (start path_only).
Proof.
  apply (NewEventFromRaw_span ","
           (quoted "name" +:+ ":" +:+ quoted "vol") " " (start path_only)).
  - vm_compute. reflexivity.
  - vm_compute. reflexivity.
Defined.

(** A line of blanks. *)
Lemma unusable_line_is_skipped_witness :
  ∃ st', handleRecord config_vol "   " [DeferLogFinished] (start path_only)
         = ([DeferLogFinished], st')
         ∧ clear_log st' = clear_log (start path_only).
Proof.
  apply (unusable_line_is_skipped config_vol "   " [DeferLogFinished]
           (start path_only)).
  left. vm_compute. reflexivity.
Defined.

(** A left click on [vol] at (10, 20). *)
Lemma handler_environment_witness :
  let env := <["Y" := "20"]> (<["X" := "10"]> (<["BUTTON" := "Left"]> path_only)) in
  ∃ ev,
    (∀ s, (NewEventFromRaw (click "vol" 1 10 20) s).1 = Ok ev)
    ∧ env !! "BUTTON" = Some (eventButton_String (I3barClickEvent.Button ev))
    ∧ env !! "X" = Some (Strconv.Itoa (I3barClickEvent.X ev))
    ∧ env !! "Y" = Some (Strconv.Itoa (I3barClickEvent.Y ev))
    ∧ ∀ key, key ≠ "BUTTON" → key ≠ "X" → key ≠ "Y" →
             env !! key = environ (start path_only) !! key.
Proof.
  apply (handler_environment config_vol (click "vol" 1 10 20)
           [DeferLogFinished] (start path_only) ["true"]
           (<["Y" := "20"]> (<["X" := "10"]> (<["BUTTON" := "Left"]> path_only)))).
  vm_compute. reflexivity.
Defined.


(** The first line and a left click on [vol]. *)
Lemma handleClickEvents_restores_environ_witness :
  environ (handleClickEvents config_vol ["["; click "vol" 1 10 20] None
             (start path_only))
  = environ (start path_only).
Proof.
  apply (handleClickEvents_restores_environ config_vol
           ["["; click "vol" 1 10 20] None (start path_only)).
  apply map_Forall_singleton. vm_compute. reflexivity.
Defined.
